(** * ObjectPool (be/src/common/object_pool.h)

    A shallow embedding of doris::ObjectPool: a list of type-erased
    [Element]s (pointer + deletion function) guarded by a spin lock.
    Pools live in a store indexed by their address, so that
    [acquire_data], which takes a second pool by pointer, is modelled
    with the aliasing the C++ code has.  The only observable effect of a
    deletion function is the deletion it performs; it is recorded in a
    trace.  A method is a program of atomic actions: run alone it is
    a state transformer, run by several threads its actions interleave. *)

From stdpp Require Import gmap strings list fin_maps.

(** ** Data model *)

(** Addresses ([void*], [T*], [ObjectPool*]), the name of the template
    argument [T], and the identity of the calling thread. *)
Abbreviation addr := Z (only parsing).
Abbreviation type_name := string (only parsing).
Abbreviation thread_id := nat (only parsing).

(** [DeleteFn]: a pointer to a function from [void*] to [void].  The only
    two functions the class ever stores are the captureless lambdas of
    [add<T>] and [add_array<T>], one pair per instantiation [T]. *)
Inductive DeleteFn :=
| delete_scalar (T : type_name)  (* [](void* obj) { delete   reinterpret_cast<T*>(obj); } *)
| delete_array (T : type_name).  (* [](void* obj) { delete[] reinterpret_cast<T*>(obj); } *)

(** [struct Element { void* obj; DeleteFn delete_fn; }] *)
Record Element := { obj : addr; delete_fn : DeleteFn }.

(** Modelled from the spec: util/spinlock.h is not among the sources.  The
    spec asks for a mutual-exclusion primitive with scoped acquire and
    release; the lock is either free or held by one thread.  (The holder is
    ghost information: it is only ever compared with the releasing
    thread.) *)
Inductive SpinLock :=
| Unlocked
| LockedBy (t : thread_id).

(** The two data members of the class. *)
Record ObjectPool := { _objects : list Element; _lock : SpinLock }.

(** What a deletion function does when it runs. *)
Inductive Event :=
| EvDelete (T : type_name) (p : addr)        (* delete   (T* )p *)
| EvDeleteArray (T : type_name) (p : addr).  (* delete[] (T* )p *)

(** The program state: the live pools by address, and the deletions
    performed so far, oldest first. *)
Record World := { pools : gmap Z ObjectPool; trace : list Event }.

Global Instance DeleteFn_eq_dec : EqDecision DeleteFn.
Proof. solve_decision. Defined.
Global Instance Element_eq_dec : EqDecision Element.
Proof. solve_decision. Defined.
Global Instance Event_eq_dec : EqDecision Event.
Proof. solve_decision. Defined.
Global Instance SpinLock_eq_dec : EqDecision SpinLock.
Proof. solve_decision. Defined.

(** ** A state-and-failure monad

    [None] stands for a call that does not return: undefined behaviour
    (a method called on a pool that is not alive, [back] of an empty list)
    or a thread spinning on a lock that is never released. *)
Definition M (A : Type) : Type := World → option (A * World).

Global Instance M_ret : MRet M := λ A x σ, Some (x, σ).
Global Instance M_bind : MBind M := λ A B f m σ,
  match m σ with
  | Some (a, σ') => f a σ'
  | None => None
  end.

Definition fail {A} : M A := λ _, None.

Definition get_pool (this : Z) : M ObjectPool := λ σ,
  match pools σ !! this with
  | Some P => Some (P, σ)
  | None => None
  end.

Definition put_pool (this : Z) (P : ObjectPool) : M unit := λ σ,
  Some (tt, {| pools := <[this := P]> (pools σ); trace := trace σ |}).

Definition emit (e : Event) : M unit := λ σ,
  Some (tt, {| pools := pools σ; trace := trace σ ++ [e] |}).

Definition set_objects (l : list Element) (P : ObjectPool) : ObjectPool :=
  {| _objects := l; _lock := _lock P |}.

Definition set_lock (k : SpinLock) (P : ObjectPool) : ObjectPool :=
  {| _objects := _objects P; _lock := k |}.

(** ** The atomic actions and what they do to the state *)

(** Modelled from the spec: [SpinLock::lock] (util/spinlock.h is missing).
    Taking a free lock succeeds; while the lock is held the caller spins,
    so the action does not complete. *)
Definition SpinLock_lock (this : Z) (tid : thread_id) : M unit :=
  P ← get_pool this;
  match _lock P with
  | Unlocked => put_pool this (set_lock (LockedBy tid) P)
  | LockedBy _ => fail
  end.

(** Modelled from the spec: [SpinLock::unlock] (util/spinlock.h is
    missing).  Only the holder releases. *)
Definition SpinLock_unlock (this : Z) (tid : thread_id) : M unit :=
  P ← get_pool this;
  match _lock P with
  | LockedBy t => if decide (t = tid) then put_pool this (set_lock Unlocked P) else fail
  | Unlocked => fail
  end.

(** [std::list<Element>] operations on the [_objects] member. *)
Definition objects (this : Z) : M (list Element) :=
  P ← get_pool this; mret (_objects P).

Definition emplace_back (this : Z) (e : Element) : M unit :=
  P ← get_pool this; put_pool this (set_objects (_objects P ++ [e]) P).

Definition list_clear (this : Z) : M unit :=
  P ← get_pool this; put_pool this (set_objects [] P).

(** [back()] and [pop_back()] require a non-empty list. *)
Definition back (this : Z) : M Element :=
  P ← get_pool this;
  match last (_objects P) with
  | Some e => mret e
  | None => fail
  end.

Definition pop_back (this : Z) : M unit :=
  P ← get_pool this;
  match _objects P with
  | [] => fail
  | _ :: _ => put_pool this (set_objects (removelast (_objects P)) P)
  end.

(** [insert(end(), first, last)] with the range already read. *)
Definition insert_at_end (this : Z) (range : list Element) : M unit :=
  P ← get_pool this; put_pool this (set_objects (_objects P ++ range) P).

(** What the function behind a [DeleteFn] does to its argument. *)
Definition deletion (f : DeleteFn) (o : addr) : Event :=
  match f with
  | delete_scalar T => EvDelete T o
  | delete_array T => EvDeleteArray T o
  end.

(** Calling through the stored function pointer: [elem.delete_fn(elem.obj)].
    The event stands for the whole delete expression, the destructor of
    [T] included.  What that destructor does beyond the deleted object is
    not part of the state: an object that is, or owns, a pool of the store
    would take that pool and its entries with it.  That a run leaves the
    pools it does not name as they were is therefore stated for runs in
    which no deletion function is called. *)
Definition call_delete_fn (f : DeleteFn) (o : addr) : M unit :=
  emit (deletion f o).

(** The members of a new pool: an empty list and a free lock, at an
    address that holds no other pool. *)
Definition construct (this : Z) : M unit := λ σ,
  match pools σ !! this with
  | Some _ => None
  | None => put_pool this {| _objects := []; _lock := Unlocked |} σ
  end.

(** The end of a pool's lifetime: its members are destroyed and its
    storage is no longer a pool.  Destroying the [std::list] member runs no
    deletion function ([Element] has a trivial destructor). *)
Definition release_storage (this : Z) : M unit := λ σ,
  match pools σ !! this with
  | Some _ => Some (tt, {| pools := delete this (pools σ); trace := trace σ |})
  | None => None
  end.

(** The actions, by name, with the type of their result. *)
Inductive Action : Type → Type :=
| Lock (this : Z) (tid : thread_id) : Action unit
| Unlock (this : Z) (tid : thread_id) : Action unit
| Objects (this : Z) : Action (list Element)
| EmplaceBack (this : Z) (e : Element) : Action unit
| ListClear (this : Z) : Action unit
| Back (this : Z) : Action Element
| PopBack (this : Z) : Action unit
| InsertAtEnd (this : Z) (range : list Element) : Action unit
| CallDeleteFn (f : DeleteFn) (o : addr) : Action unit
| Construct (this : Z) : Action unit
| ReleaseStorage (this : Z) : Action unit.

Definition perform {X} (a : Action X) : M X :=
  match a with
  | Lock this tid => SpinLock_lock this tid
  | Unlock this tid => SpinLock_unlock this tid
  | Objects this => objects this
  | EmplaceBack this e => emplace_back this e
  | ListClear this => list_clear this
  | Back this => back this
  | PopBack this => pop_back this
  | InsertAtEnd this range => insert_at_end this range
  | CallDeleteFn f o => call_delete_fn f o
  | Construct this => construct this
  | ReleaseStorage this => release_storage this
  end.

(** ** Programs *)

(** A program is finished, or performs an action and goes on with its
    result. *)
Inductive Prog (A : Type) : Type :=
| Done (a : A)
| Atomic {X : Type} (a : Action X) (k : X → Prog A).
Arguments Done {A} a.
Arguments Atomic {A X} a k.

Fixpoint Prog_bind {A B} (f : A → Prog B) (p : Prog A) : Prog B :=
  match p with
  | Done a => f a
  | Atomic a k => Atomic a (λ x, Prog_bind f (k x))
  end.

Global Instance Prog_ret : MRet Prog := @Done.
Global Instance Prog_mbind : MBind Prog := @Prog_bind.

Definition atomic {X} (a : Action X) : Prog X := Atomic a Done.

(** A program run alone, from start to end. *)
Fixpoint run {A} (p : Prog A) : M A :=
  match p with
  | Done a => mret a
  | Atomic a k => x ← perform a; run (k x)
  end.

(** [std::lock_guard<SpinLock> l(_lock);] followed by the rest of the
    scope: the lock is taken on entry and released when the scope ends,
    after the returned value has been computed. *)
Definition lock_guard {A} (this : Z) (tid : thread_id) (scope : Prog A) : Prog A :=
  atomic (Lock this tid) ;;
  r ← scope;
  atomic (Unlock this tid) ;;
  mret r.

(** [for (Element& elem : l) body(elem);] *)
Fixpoint for_each (l : list Element) (body : Element → Prog unit) : Prog unit :=
  match l with
  | [] => mret tt
  | elem :: l' => body elem ;; for_each l' body
  end.

(** ** The methods of [ObjectPool] *)

(** [ObjectPool() = default] *)
Definition ObjectPool_ctor (this : Z) : Prog unit :=
  atomic (Construct this).

Definition add (T : type_name) (this : Z) (tid : thread_id) (t : addr) : Prog addr :=
  lock_guard this tid (
    atomic (EmplaceBack this {| obj := t; delete_fn := delete_scalar T |}) ;;
    mret t).

Definition add_array (T : type_name) (this : Z) (tid : thread_id) (t : addr) : Prog addr :=
  lock_guard this tid (
    atomic (EmplaceBack this {| obj := t; delete_fn := delete_array T |}) ;;
    mret t).

Definition clear (this : Z) (tid : thread_id) : Prog unit :=
  lock_guard this tid (
    l ← atomic (Objects this);
    for_each l (λ elem, atomic (CallDeleteFn (delete_fn elem) (obj elem))) ;;
    atomic (ListClear this)).

Definition remove_last_one (this : Z) (tid : thread_id) : Prog unit :=
  lock_guard this tid (
    l ← atomic (Objects this);
    if decide (l ≠ []) then
      elem ← atomic (Back this);
      atomic (CallDeleteFn (delete_fn elem) (obj elem)) ;;
      atomic (PopBack this)
    else mret tt).

(** [acquire_data] takes no lock.  With [src == this] the call is outside
    the precondition of [std::list::insert]; the model then follows the two
    statements in order on the one list (the range is copied, then the
    list is cleared). *)
Definition acquire_data (this src : Z) : Prog unit :=
  range ← atomic (Objects src);
  atomic (InsertAtEnd this range) ;;
  atomic (ListClear src).

(** [~ObjectPool() { clear(); }], then the members go. *)
Definition ObjectPool_dtor (this : Z) (tid : thread_id) : Prog unit :=
  clear this tid ;;
  atomic (ReleaseStorage this).

(** ** Vocabulary of the specifications *)

(** The deletion that destroying an entry performs: its own function
    applied to its own pointer. *)
Definition destroy (e : Element) : Event := deletion (delete_fn e) (obj e).

(** The entries the two registration forms record. *)
Definition scalar_entry (T : type_name) (t : addr) : Element :=
  {| obj := t; delete_fn := delete_scalar T |}.
Definition array_entry (T : type_name) (t : addr) : Element :=
  {| obj := t; delete_fn := delete_array T |}.

(** A pool between two calls: it holds [l] and its lock is free. *)
Definition idle_pool (l : list Element) : ObjectPool :=
  {| _objects := l; _lock := Unlocked |}.

(** Pool [this] is alive, holds [l] and nobody is inside one of its
    locked methods. *)
Definition holds (σ : World) (this : Z) (l : list Element) : Prop :=
  pools σ !! this = Some (idle_pool l).

(** The entries of a pool; a pool that is not alive has none. *)
Definition entries (σ : World) (this : Z) : list Element :=
  match pools σ !! this with
  | Some P => _objects P
  | None => []
  end.

(** State updates used to describe results. *)
Definition with_pool (this : Z) (P : ObjectPool) (σ : World) : World :=
  {| pools := <[this := P]> (pools σ); trace := trace σ |}.
Definition with_events (evs : list Event) (σ : World) : World :=
  {| pools := pools σ; trace := trace σ ++ evs |}.
Definition without_pool (this : Z) (σ : World) : World :=
  {| pools := delete this (pools σ); trace := trace σ |}.

(** ** Sequences of registrations *)

(** One call of either registration form, with its template argument and
    its pointer. *)
Inductive Registration :=
| RegScalar (T : type_name) (t : addr)  (* add<T>(t) *)
| RegArray (T : type_name) (t : addr).  (* add_array<T>(t) *)

Definition register (this : Z) (tid : thread_id) (r : Registration) : Prog addr :=
  match r with
  | RegScalar T t => add T this tid t
  | RegArray T t => add_array T this tid t
  end.

Definition entry_of (r : Registration) : Element :=
  match r with
  | RegScalar T t => scalar_entry T t
  | RegArray T t => array_entry T t
  end.

Fixpoint register_all (this : Z) (tid : thread_id) (rs : list Registration) : Prog unit :=
  match rs with
  | [] => mret tt
  | r :: rs' => register this tid r ;; register_all this tid rs'
  end.


(** ** Histories of calls *)

(** The calls a program can make on its pools. *)
Inductive Op :=
| OpNew (this : Z)                                   (* ObjectPool() *)
| OpAdd (this : Z) (T : type_name) (t : addr)        (* this->add<T>(t) *)
| OpAddArray (this : Z) (T : type_name) (t : addr)   (* this->add_array<T>(t) *)
| OpClear (this : Z)                                 (* this->clear() *)
| OpRemoveLast (this : Z)                            (* this->remove_last_one() *)
| OpAcquire (this src : Z)                           (* this->acquire_data(src) *)
| OpDelete (this : Z).                               (* this->~ObjectPool() *)

(** A call together with the thread that makes it. *)
Definition call (c : thread_id * Op) : Prog unit :=
  match c.2 with
  | OpNew this => ObjectPool_ctor this
  | OpAdd this T t => add T this c.1 t ;; mret tt
  | OpAddArray this T t => add_array T this c.1 t ;; mret tt
  | OpClear this => clear this c.1
  | OpRemoveLast this => remove_last_one this c.1
  | OpAcquire this src => acquire_data this src
  | OpDelete this => ObjectPool_dtor this c.1
  end.

(** Calls made one after the other. *)
Fixpoint calls (cs : list (thread_id * Op)) : Prog unit :=
  match cs with
  | [] => mret tt
  | c :: cs' => call c ;; calls cs'
  end.

(** The entry a call registers, if it is a registration. *)
Definition registered_by (o : Op) : list Element :=
  match o with
  | OpAdd _ T t => [scalar_entry T t]
  | OpAddArray _ T t => [array_entry T t]
  | _ => []
  end.

Definition registered (cs : list (thread_id * Op)) : list Element :=
  cs ≫= (λ c, registered_by c.2).

(** All entries held by the live pools (in no particular order). *)
Definition all_entries (σ : World) : list Element :=
  map_to_list (pools σ) ≫= (λ kP, _objects kP.2).

(** The deletions performed so far together with those still owed for the
    entries held. *)
Definition deletions_done_or_owed (σ : World) : list Event :=
  trace σ ++ map destroy (all_entries σ).

(** Number of occurrences in a list. *)
Definition occurrences {A} `{EqDecision A} (x : A) (l : list A) : nat :=
  length (filter (x =.) l).

(** ** Threads *)

(** The programs of the threads, by thread identity, and the state they
    share. *)
Definition Config : Type := list (Prog unit) * World.

(** Thread [tid] performs its next action.  There is no result when the
    thread has finished or when its action does not complete in the
    current state (a thread spinning on a held lock makes no progress). *)
Definition advance (tid : thread_id) (c : Config) : option Config :=
  match c.1 !! tid with
  | Some (Atomic a k) =>
      match perform a c.2 with
      | Some (x, σ') => Some (<[tid := k x]> c.1, σ')
      | None => None
      end
  | _ => None
  end.

(** The threads take steps in the order given. *)
Fixpoint schedule (order : list thread_id) (c : Config) : option Config :=
  match order with
  | [] => Some c
  | tid :: order' =>
      match advance tid c with
      | Some c' => schedule order' c'
      | None => None
      end
  end.

(** The locked methods, called on pool [this]. *)
Definition locked_method_of (this : Z) (o : Op) : Prop :=
  match o with
  | OpAdd d _ _ | OpAddArray d _ _ | OpClear d | OpRemoveLast d => d = this
  | _ => False
  end.

(** Thread [tid] makes the calls [os] one after the other; thread [tid] of
    [spawn oss] makes the calls [oss !! tid]. *)
Definition thread_program (tid : thread_id) (os : list Op) : Prog unit :=
  calls (map (pair tid) os).

Definition spawn (oss : list (list Op)) : list (Prog unit) :=
  imap thread_program oss.

(** What an action is about. *)
Inductive ActionKind :=
| KAcquire (this : Z) (tid : thread_id)
| KRelease (this : Z) (tid : thread_id)
| KList (this : Z)       (* reads or changes the list of a pool *)
| KDelete                (* runs a deletion function *)
| KLifetime (this : Z).  (* starts or ends the lifetime of a pool *)

Definition kind {X} (a : Action X) : ActionKind :=
  match a with
  | Lock this tid => KAcquire this tid
  | Unlock this tid => KRelease this tid
  | Objects this | EmplaceBack this _ | ListClear this | Back this | PopBack this
  | InsertAtEnd this _ => KList this
  | CallDeleteFn _ _ => KDelete
  | Construct this | ReleaseStorage this => KLifetime this
  end.

(** A thread that has finished, or whose next action is to take a lock. *)
Definition at_lock_or_done (p : Prog unit) : bool :=
  match p with
  | Done _ => true
  | Atomic a _ => match kind a with KAcquire _ _ => true | _ => false end
  end.

(** [bracketed this tid h h' p]: run by thread [tid] from a point where it
    holds the lock of [this] iff [h], the program [p] takes that lock only
    when it does not hold it, reads or changes the list of [this], runs
    deletion functions and releases the lock only while holding it, does
    nothing else, and finishes holding the lock iff [h']. *)
Fixpoint bracketed {A} (this : Z) (tid : thread_id) (h h' : bool) (p : Prog A) : Prop :=
  match p with
  | Done _ => h = h'
  | Atomic a k =>
      match kind a with
      | KAcquire d t => d = this ∧ t = tid ∧ h = false ∧ ∀ x, bracketed this tid true h' (k x)
      | KRelease d t => d = this ∧ t = tid ∧ h = true ∧ ∀ x, bracketed this tid false h' (k x)
      | KList d => d = this ∧ h = true ∧ ∀ x, bracketed this tid true h' (k x)
      | KDelete => h = true ∧ ∀ x, bracketed this tid true h' (k x)
      | KLifetime _ => False
      end
  end.

(** The invariant of a configuration whose threads call locked methods of
    [this]: the pool is alive and every thread is at a point of its
    program that matches its holding the lock or not. *)
Definition lock_discipline (this : Z) (c : Config) : Prop :=
  ∃ P, pools c.2 !! this = Some P
       ∧ ∀ tid p, c.1 !! tid = Some p →
                  bracketed this tid (bool_decide (_lock P = LockedBy tid)) false p.

(** ** Sample states *)

Definition empty_world : World := {| pools := ∅; trace := [] |}.

(** One pool at address 1 with a scalar [int], an array of [int] and a
    scalar [Foo], in that order. *)
Definition one_pool_world : World :=
  with_pool 1 (idle_pool [scalar_entry "int" 100; array_entry "int" 200;
                          scalar_entry "Foo" 300]) empty_world.

(** The pools of the transfer example: [D] at address 1 holds [y1], [S] at
    address 2 holds [x1; x2; x3]. *)
Definition two_pool_world : World :=
  with_pool 2 (idle_pool [scalar_entry "X" 21; array_entry "X" 22; scalar_entry "X" 23])
    (with_pool 1 (idle_pool [scalar_entry "Y" 11]) empty_world).

(** A live pool at address 1 with nothing in it. *)
Definition empty_pool_world : World := with_pool 1 (idle_pool []) empty_world.

(** The pool of [one_pool_world] next to an empty pool at address 2. *)
Definition pool_and_empty_world : World := with_pool 2 (idle_pool []) one_pool_world.

(** A history: a pool is created and filled, its last entry is rolled
    back, a second pool takes the rest over and is cleared, and the first
    pool is destroyed. *)
Definition sample_history : list (thread_id * Op) :=
  [(0, OpNew 1); (0, OpAdd 1 "int" 100); (1, OpAddArray 1 "int" 200);
   (1, OpAdd 1 "Foo" 300); (0, OpRemoveLast 1); (0, OpNew 2);
   (0, OpAcquire 2 1); (1, OpClear 2); (0, OpDelete 1)].

Definition sample_history_result : World :=
  {| pools := {[ 2%Z := idle_pool [] ]};
     trace := [EvDelete "Foo" 300; EvDelete "int" 100; EvDeleteArray "int" 200] |}.

(** Two threads on the pool of [empty_pool_world]: one registers and
    clears, the other registers an array and rolls back. *)
Definition sample_threads : list (list Op) :=
  [[OpAdd 1 "int" 100; OpClear 1]; [OpAddArray 1 "int" 200; OpRemoveLast 1]].

(** Thread 0 takes the lock, registers and releases; thread 1 takes the
    lock and registers. *)
Definition sample_order : list thread_id := [0; 0; 0; 1; 1].

(** The configuration reached by [sample_order]. *)
Definition sample_config : Config :=
  default (spawn sample_threads, empty_pool_world)
    (schedule sample_order (spawn sample_threads, empty_pool_world)).

(** A thread clearing the pool at address 2 of [two_pool_world] while
    another moves its entries to the pool at address 1. *)
Definition racing_threads : list (list Op) := [[OpClear 2]; [OpAcquire 1 2]].

(** ** Further vocabulary *)

(** [remove_last_one] called [n] times in a row. *)
Fixpoint remove_last_n (this : Z) (tid : thread_id) (n : nat) : Prog unit :=
  match n with
  | 0 => mret tt
  | S n' => remove_last_one this tid ;; remove_last_n this tid n'
  end.

(** Three pools at addresses 1, 2 and 3. *)
Definition three_pool_world : World :=
  with_pool 3 (idle_pool [array_entry "Z" 31]) two_pool_world.

(** A pool asked to take over from itself. *)
Definition self_acquire (o : Op) : Prop :=
  match o with
  | OpAcquire this src => this = src
  | _ => False
  end.

(** The pools a call names. *)
Definition pools_of (o : Op) : list Z :=
  match o with
  | OpNew this | OpAdd this _ _ | OpAddArray this _ _ | OpClear this
  | OpRemoveLast this | OpDelete this => [this]
  | OpAcquire this src => [this; src]
  end.

(** No live pool has its lock held. *)
Definition all_idle (σ : World) : Prop :=
  ∀ this P, pools σ !! this = Some P → _lock P = Unlocked.

(** What a call that returns has done, call by call. *)
Definition effect_of (o : Op) (σ σ' : World) : Prop :=
  match o with
  | OpNew this =>
      pools σ !! this = None ∧ σ' = with_pool this (idle_pool []) σ
  | OpAdd this T t =>
      ∃ l, holds σ this l ∧ σ' = with_pool this (idle_pool (l ++ [scalar_entry T t])) σ
  | OpAddArray this T t =>
      ∃ l, holds σ this l ∧ σ' = with_pool this (idle_pool (l ++ [array_entry T t])) σ
  | OpClear this =>
      ∃ l, holds σ this l
           ∧ σ' = with_events (map destroy l) (with_pool this (idle_pool []) σ)
  | OpRemoveLast this =>
      (holds σ this [] ∧ σ' = σ)
      ∨ ∃ front e, holds σ this (front ++ [e])
                   ∧ σ' = with_events [destroy e] (with_pool this (idle_pool front) σ)
  | OpAcquire this src =>
      ∃ D S, pools σ !! this = Some D ∧ pools σ !! src = Some S
             ∧ σ' = if decide (this = src) then with_pool this (set_objects [] D) σ
                    else with_pool src (set_objects [] S)
                           (with_pool this (set_objects (_objects D ++ _objects S) D) σ)
  | OpDelete this =>
      ∃ l, holds σ this l ∧ σ' = with_events (map destroy l) (without_pool this σ)
  end.

(** [sample_history] followed by the destruction of the second pool: no
    pool is left. *)
Definition whole_history : list (thread_id * Op) := sample_history ++ [(1, OpDelete 2)].

Definition whole_history_result : World :=
  {| pools := ∅;
     trace := [EvDelete "Foo" 300; EvDelete "int" 100; EvDeleteArray "int" 200] |}.

(** A pool nobody calls, next to the pools of a history. *)
Definition bystander : ObjectPool :=
  {| _objects := [scalar_entry "K" 90]; _lock := LockedBy 5 |}.

(** ** Threads: the order of the calls *)

(** The calls of thread [tid] in a history, in their order. *)
Definition calls_of (tid : thread_id) (cs : list (thread_id * Op)) : list Op :=
  snd <$> filter (λ c, c.1 = tid) cs.

(** [critical this tid false p]: [p] is what is left of one locked method
    of [this] after thread [tid] has taken the lock: it reads or changes
    the list of [this] and runs deletion functions, then releases the lock
    and finishes.  [critical this tid true p]: [p] is the guarded scope
    alone, and finishes with the lock still held. *)
Fixpoint critical {A} (this : Z) (tid : thread_id) (scope_only : bool) (p : Prog A)
  : Prop :=
  match p with
  | Done _ => scope_only = true
  | Atomic a k =>
      match kind a with
      | KList d => d = this ∧ ∀ x, critical this tid scope_only (k x)
      | KDelete => ∀ x, critical this tid scope_only (k x)
      | KRelease d t =>
          scope_only = false ∧ d = this ∧ t = tid ∧ ∀ x, ∃ r, k x = Done r
      | _ => False
      end
  end.

Definition finished (p : Prog unit) : bool :=
  match p with
  | Done _ => true
  | Atomic _ _ => false
  end.

(** A configuration reached by threads calling locked methods of [this],
    started as [spawn oss] in [σ0], seen as a sequential history: the
    calls [done] have been completed in that order and led to [σq]; each
    thread has the calls [rest] left; and either no call is in progress,
    or one thread is inside a call [o], with [q] left of it, on the way
    from [σq] to the state [σfin] in which the call ends. *)
Definition serial_view (this : Z) (σ0 : World) (oss : list (list Op)) (c : Config)
  : Prop :=
  ∃ (done : list (thread_id * Op)) (rest : list (list Op)) (σq : World)
    (lq : list Element),
    run (calls done) σ0 = Some (tt, σq)
    ∧ holds σq this lq
    ∧ length rest = length oss
    ∧ Forall (Forall (locked_method_of this)) rest
    ∧ ((c.2 = σq ∧ c.1 = spawn rest
        ∧ ∀ t os r, oss !! t = Some os → rest !! t = Some r →
                    os = calls_of t done ++ r)
       ∨ ∃ t o (q : Prog unit) rt P σfin,
           rest !! t = Some rt ∧ locked_method_of this o
           ∧ c.1 = <[t := q ≫= λ _, thread_program t rt]> (spawn rest)
           ∧ critical this t false q
           ∧ pools c.2 !! this = Some P ∧ _lock P = LockedBy t
           ∧ run q c.2 = Some (tt, σfin)
           ∧ run (call (t, o)) σq = Some (tt, σfin)
           ∧ ∀ u os r, oss !! u = Some os → rest !! u = Some r →
                       os = calls_of u done ++ (if decide (u = t) then [o] else []) ++ r).



(** A pool gets a scalar and an array and is destroyed with both in it. *)
Definition kind_history : list (thread_id * Op) :=
  [(0, OpNew 1); (0, OpAdd 1 "int" 100); (1, OpAddArray 1 "int" 200); (0, OpDelete 1)].

Definition kind_history_result : World :=
  {| pools := ∅; trace := [EvDelete "int" 100; EvDeleteArray "int" 200] |}.

(** Registrations, a transfer and a rollback on an empty pool: no deletion
    function is called. *)
Definition transfer_history : list (thread_id * Op) :=
  [(0, OpNew 1); (0, OpAdd 1 "int" 100); (0, OpNew 2); (1, OpAddArray 2 "int" 200);
   (0, OpAcquire 2 1); (1, OpRemoveLast 1)].

Definition transfer_history_result : World :=
  {| pools := {[ 1%Z := idle_pool [];
                 2%Z := idle_pool [array_entry "int" 200; scalar_entry "int" 100] ]};
     trace := [] |}.
(** ** Running the monad *)

Lemma bind_run {A B} (m : M A) (f : A → M B) σ a σ' :
  m σ = Some (a, σ') → (m ≫= f) σ = f a σ'.
Proof. intros Hm. unfold mbind, M_bind. by rewrite Hm. Qed.

Lemma bind_inv {A B} (m : M A) (f : A → M B) σ b σ2 :
  (m ≫= f) σ = Some (b, σ2) → ∃ a σ1, m σ = Some (a, σ1) ∧ f a σ1 = Some (b, σ2).
Proof.
  unfold mbind, M_bind. destruct (m σ) as [[a σ1]|] eqn:Hm; [|done].
  intros Hf. by exists a, σ1.
Qed.

(** Running a program that starts with a completed part. *)
Lemma run_bind {A B} (p : Prog A) (f : A → Prog B) : ∀ σ,
  run (p ≫= f) σ = (run p ≫= (λ a, run (f a))) σ.
Proof.
  induction p as [a|X a k IH]; intros σ; [done|].
  change (run (Atomic a k ≫= f) σ) with ((x ← perform a; run (k x ≫= f)) σ).
  simpl. unfold mbind, M_bind. destruct (perform a σ) as [[x σ1]|]; [|done].
  apply IH.
Qed.

Lemma run_then {A B} (p : Prog A) (f : A → Prog B) σ a σ' :
  run p σ = Some (a, σ') → run (p ≫= f) σ = run (f a) σ'.
Proof. intros Hp. rewrite run_bind. exact (bind_run (run p) (λ a, run (f a)) σ a σ' Hp). Qed.

Lemma run_atomic {X} (a : Action X) σ : run (atomic a) σ = perform a σ.
Proof. simpl. unfold mbind, M_bind. by destruct (perform a σ) as [[x σ1]|]. Qed.

Lemma run_step {X B} (a : Action X) (f : X → Prog B) σ x σ' :
  perform a σ = Some (x, σ') → run (atomic a ≫= f) σ = run (f x) σ'.
Proof. intros Ha. apply run_then. by rewrite run_atomic. Qed.

Lemma run_inv {A B} (p : Prog A) (f : A → Prog B) σ b σ2 :
  run (p ≫= f) σ = Some (b, σ2) →
  ∃ a σ1, run p σ = Some (a, σ1) ∧ run (f a) σ1 = Some (b, σ2).
Proof. rewrite run_bind. apply bind_inv. Qed.

Lemma get_pool_run this P σ :
  pools σ !! this = Some P → get_pool this σ = Some (P, σ).
Proof. intros H. unfold get_pool. by rewrite H. Qed.

Lemma with_pool_lookup this P σ : pools (with_pool this P σ) !! this = Some P.
Proof. apply lookup_insert_eq. Qed.

Lemma with_pool_lookup_ne this other P σ :
  this ≠ other → pools (with_pool this P σ) !! other = pools σ !! other.
Proof. intros. by apply lookup_insert_ne. Qed.

Lemma with_pool_twice this P Q σ :
  with_pool this Q (with_pool this P σ) = with_pool this Q σ.
Proof. unfold with_pool. simpl. by rewrite insert_insert_eq. Qed.

Lemma with_pool_same this P σ :
  pools σ !! this = Some P → with_pool this P σ = σ.
Proof. intros H. destruct σ. unfold with_pool. simpl in *. by rewrite insert_id. Qed.

Lemma with_events_nil σ : with_events [] σ = σ.
Proof. destruct σ. unfold with_events. simpl. by rewrite app_nil_r. Qed.

Lemma with_events_app evs1 evs2 σ :
  with_events evs2 (with_events evs1 σ) = with_events (evs1 ++ evs2) σ.
Proof. unfold with_events. simpl. by rewrite app_assoc. Qed.

Lemma with_pool_events this P evs σ :
  with_pool this P (with_events evs σ) = with_events evs (with_pool this P σ).
Proof. done. Qed.

(** *** The list operations, on a pool in any lock state *)

Section list_operations.
Context (this : Z) (P : ObjectPool) (σ : World).
Hypothesis alive : pools σ !! this = Some P.

Lemma objects_run : objects this σ = Some (_objects P, σ).
Proof. unfold objects. by rewrite (bind_run _ _ _ _ _ (get_pool_run _ _ _ alive)). Qed.

Lemma emplace_back_run e :
  emplace_back this e σ = Some (tt, with_pool this (set_objects (_objects P ++ [e]) P) σ).
Proof. unfold emplace_back. by rewrite (bind_run _ _ _ _ _ (get_pool_run _ _ _ alive)). Qed.

Lemma insert_at_end_run range :
  insert_at_end this range σ
  = Some (tt, with_pool this (set_objects (_objects P ++ range) P) σ).
Proof. unfold insert_at_end. by rewrite (bind_run _ _ _ _ _ (get_pool_run _ _ _ alive)). Qed.

Lemma list_clear_run :
  list_clear this σ = Some (tt, with_pool this (set_objects [] P) σ).
Proof. unfold list_clear. by rewrite (bind_run _ _ _ _ _ (get_pool_run _ _ _ alive)). Qed.

Lemma back_run front e :
  _objects P = front ++ [e] → back this σ = Some (e, σ).
Proof.
  intros Hl. unfold back. rewrite (bind_run _ _ _ _ _ (get_pool_run _ _ _ alive)).
  by rewrite Hl, last_snoc.
Qed.

Lemma pop_back_run front e :
  _objects P = front ++ [e] →
  pop_back this σ = Some (tt, with_pool this (set_objects front P) σ).
Proof.
  intros Hl. unfold pop_back. rewrite (bind_run _ _ _ _ _ (get_pool_run _ _ _ alive)).
  rewrite Hl, removelast_last. by destruct front.
Qed.
End list_operations.

(** The loop of [clear] performs the deletions of the entries, front to
    back, and touches no pool. *)
Lemma for_each_destroy l σ :
  run (for_each l (λ elem, atomic (CallDeleteFn (delete_fn elem) (obj elem)))) σ
  = Some (tt, with_events (map destroy l) σ).
Proof.
  revert σ. induction l as [|e l IH]; intros σ; simpl.
  - by rewrite with_events_nil.
  - unfold mbind, M_bind, call_delete_fn, emit. simpl.
    rewrite IH. unfold with_events. simpl. by rewrite <- app_assoc.
Qed.

Lemma call_delete_fn_run e σ :
  call_delete_fn (delete_fn e) (obj e) σ = Some (tt, with_events [destroy e] σ).
Proof. done. Qed.

(** *** The scoped lock *)

Lemma lock_guard_run {A} this tid (scope : Prog A) σ P r σ1 P1 :
  pools σ !! this = Some P → _lock P = Unlocked →
  run scope (with_pool this (set_lock (LockedBy tid) P) σ) = Some (r, σ1) →
  pools σ1 !! this = Some P1 → _lock P1 = LockedBy tid →
  run (lock_guard this tid scope) σ
  = Some (r, with_pool this (set_lock Unlocked P1) σ1).
Proof.
  intros Hal Hfree Hscope Hal1 Hheld. unfold lock_guard.
  assert (Hlock : perform (Lock this tid) σ
                  = Some (tt, with_pool this (set_lock (LockedBy tid) P) σ)).
  { simpl. unfold SpinLock_lock. rewrite (bind_run _ _ _ _ _ (get_pool_run _ _ _ Hal)).
    by rewrite Hfree. }
  rewrite (run_step _ _ _ _ _ Hlock), (run_then _ _ _ _ _ Hscope).
  assert (Hunlock : perform (Unlock this tid) σ1
                    = Some (tt, with_pool this (set_lock Unlocked P1) σ1)).
  { simpl. unfold SpinLock_unlock.
    rewrite (bind_run _ _ _ _ _ (get_pool_run _ _ _ Hal1)).
    rewrite Hheld. by rewrite decide_True. }
  by rewrite (run_step _ _ _ _ _ Hunlock).
Qed.

(** A call on a pool whose lock is held, or on no pool, does not return. *)
Lemma lock_guard_held {A} this tid (scope : Prog A) σ P t :
  pools σ !! this = Some P → _lock P = LockedBy t →
  run (lock_guard this tid scope) σ = None.
Proof.
  intros Hal Hheld. unfold lock_guard. simpl. unfold SpinLock_lock.
  unfold mbind at 1. unfold M_bind.
  unfold mbind at 1. unfold M_bind.
  by rewrite (get_pool_run _ _ _ Hal), Hheld.
Qed.

Lemma lock_guard_no_pool {A} this tid (scope : Prog A) σ :
  pools σ !! this = None → run (lock_guard this tid scope) σ = None.
Proof.
  intros Hno. unfold lock_guard. simpl. unfold SpinLock_lock, get_pool.
  unfold mbind at 1. unfold M_bind.
  unfold mbind at 1. unfold M_bind.
  by rewrite Hno.
Qed.

(** ** What each method does when called on an idle pool *)

Section methods_on_idle_pool.
Context (this : Z) (tid : thread_id) (l : list Element) (σ : World).
Hypothesis idle : holds σ this l.

(** The world the body of a locked method starts in. *)
Let held : ObjectPool := set_lock (LockedBy tid) (idle_pool l).
Let locked : World := with_pool this held σ.

(** A scope that replaces the list by [l'] and performs [evs]. *)
Lemma locked_scope_run {A} (scope : Prog A) r l' evs :
  run scope locked
  = Some (r, with_events evs (with_pool this (set_objects l' held) locked)) →
  run (lock_guard this tid scope) σ
  = Some (r, with_events evs (with_pool this (idle_pool l') σ)).
Proof.
  intros Hscope.
  rewrite (lock_guard_run this tid scope σ (idle_pool l) r _ (set_objects l' held)
             idle eq_refl Hscope); [| apply with_pool_lookup | done].
  unfold locked. by rewrite with_pool_events, !with_pool_twice.
Qed.

Lemma emplace_locked_run e :
  run (lock_guard this tid (atomic (EmplaceBack this e) ;; mret (obj e))) σ
  = Some (obj e, with_pool this (idle_pool (l ++ [e])) σ).
Proof.
  rewrite (locked_scope_run _ (obj e) (l ++ [e]) []); [by rewrite with_events_nil|].
  rewrite with_events_nil.
  erewrite run_step; [done|]. apply (emplace_back_run this held), with_pool_lookup.
Qed.

Lemma add_run T t :
  run (add T this tid t) σ
  = Some (t, with_pool this (idle_pool (l ++ [scalar_entry T t])) σ).
Proof. apply (emplace_locked_run (scalar_entry T t)). Qed.

Lemma add_array_run T t :
  run (add_array T this tid t) σ
  = Some (t, with_pool this (idle_pool (l ++ [array_entry T t])) σ).
Proof. apply (emplace_locked_run (array_entry T t)). Qed.

Lemma clear_run :
  run (clear this tid) σ
  = Some (tt, with_events (map destroy l) (with_pool this (idle_pool []) σ)).
Proof.
  apply locked_scope_run.
  erewrite run_step; [| apply (objects_run this held), with_pool_lookup].
  erewrite run_then; [| apply for_each_destroy].
  rewrite run_atomic. cbn [perform].
  erewrite (list_clear_run this held); [| apply with_pool_lookup].
  by rewrite with_pool_events.
Qed.

Lemma remove_last_one_run_empty :
  l = [] → run (remove_last_one this tid) σ = Some (tt, σ).
Proof.
  intros Hl. unfold remove_last_one.
  rewrite (locked_scope_run _ tt [] []).
  - rewrite with_events_nil. rewrite with_pool_same; [done|]. by rewrite <- Hl.
  - erewrite run_step; [| apply (objects_run this held), with_pool_lookup].
    cbv beta. rewrite decide_False; [| simpl; by rewrite Hl; intros []].
    simpl. rewrite with_events_nil. unfold locked. rewrite with_pool_twice.
    unfold held. by rewrite Hl.
Qed.

Lemma remove_last_one_run_last front e :
  l = front ++ [e] →
  run (remove_last_one this tid) σ
  = Some (tt, with_events [destroy e] (with_pool this (idle_pool front) σ)).
Proof.
  intros Hl. apply locked_scope_run.
  erewrite run_step; [| apply (objects_run this held), with_pool_lookup].
  cbv beta. rewrite decide_True; [| simpl; by rewrite Hl; destruct front].
  erewrite run_step; [| exact (back_run this held _ (with_pool_lookup _ _ _) front e Hl)].
  erewrite run_step; [| apply call_delete_fn_run].
  rewrite run_atomic.
  exact (pop_back_run this held (with_events [destroy e] locked)
           (with_pool_lookup _ _ _) front e Hl).
Qed.
End methods_on_idle_pool.

(** [acquire_data] on two different pools, whatever their lock states. *)
Lemma acquire_data_run this src D S σ :
  this ≠ src →
  pools σ !! this = Some D → pools σ !! src = Some S →
  run (acquire_data this src) σ
  = Some (tt, with_pool src (set_objects [] S)
                (with_pool this (set_objects (_objects D ++ _objects S) D) σ)).
Proof.
  intros Hne HD HS. unfold acquire_data.
  erewrite run_step; [| by apply objects_run].
  erewrite run_step; [| by apply insert_at_end_run].
  rewrite run_atomic. apply list_clear_run. by rewrite with_pool_lookup_ne.
Qed.

(** [acquire_data] of a pool into itself: the list ends up empty and
    nothing is deleted. *)
Lemma acquire_data_self this D σ :
  pools σ !! this = Some D →
  run (acquire_data this this) σ = Some (tt, with_pool this (set_objects [] D) σ).
Proof.
  intros HD. unfold acquire_data.
  erewrite run_step; [| by apply objects_run].
  erewrite run_step; [| by apply insert_at_end_run].
  rewrite run_atomic. cbn [perform].
  erewrite list_clear_run; [| apply with_pool_lookup].
  by rewrite with_pool_twice.
Qed.

Lemma ObjectPool_ctor_run this σ :
  pools σ !! this = None →
  run (ObjectPool_ctor this) σ = Some (tt, with_pool this (idle_pool []) σ).
Proof.
  intros H. unfold ObjectPool_ctor. rewrite run_atomic. cbn [perform].
  unfold construct. by rewrite H.
Qed.

Lemma ObjectPool_ctor_taken this P σ :
  pools σ !! this = Some P → run (ObjectPool_ctor this) σ = None.
Proof.
  intros H. unfold ObjectPool_ctor. rewrite run_atomic. cbn [perform].
  unfold construct. by rewrite H.
Qed.

Lemma release_storage_run this P σ :
  pools σ !! this = Some P → release_storage this σ = Some (tt, without_pool this σ).
Proof. intros H. unfold release_storage. by rewrite H. Qed.

Lemma ObjectPool_dtor_run this tid l σ :
  holds σ this l →
  run (ObjectPool_dtor this tid) σ
  = Some (tt, with_events (map destroy l) (without_pool this σ)).
Proof.
  intros Hidle. unfold ObjectPool_dtor.
  erewrite run_then; [| by apply clear_run].
  rewrite run_atomic. cbn [perform].
  erewrite release_storage_run; [| apply with_pool_lookup].
  unfold without_pool, with_events, with_pool. simpl.
  by rewrite delete_insert_eq.
Qed.

Lemma entries_with_pool this P σ : entries (with_pool this P σ) this = _objects P.
Proof. unfold entries. by rewrite with_pool_lookup. Qed.

Lemma entries_with_events evs σ this : entries (with_events evs σ) this = entries σ this.
Proof. done. Qed.

Lemma entries_without_pool this σ : entries (without_pool this σ) this = [].
Proof. unfold entries, without_pool. simpl. by rewrite lookup_delete_eq. Qed.

Lemma holds_entries σ this l : holds σ this l → entries σ this = l.
Proof. intros H. unfold entries. by rewrite H. Qed.

(** ** Sequences of registrations *)

Lemma register_run this tid l σ r :
  holds σ this l →
  run (register this tid r) σ
  = Some (obj (entry_of r), with_pool this (idle_pool (l ++ [entry_of r])) σ).
Proof. intros H. destruct r; simpl register; [by apply add_run | by apply add_array_run]. Qed.

Lemma register_all_run this tid rs : ∀ l σ,
  holds σ this l →
  run (register_all this tid rs) σ
  = Some (tt, with_pool this (idle_pool (l ++ map entry_of rs)) σ).
Proof.
  induction rs as [|r rs IH]; intros l σ Hidle; cbn [register_all].
  - simpl. rewrite app_nil_r. by rewrite with_pool_same.
  - erewrite run_then; [| by apply register_run].
    rewrite (IH (l ++ [entry_of r])); [| apply with_pool_lookup].
    by rewrite with_pool_twice, <- app_assoc.
Qed.

(** ** Bulk release *)

(** C1.  Called on an idle pool holding [l], [clear] returns, having
    performed exactly the deletions [map destroy l]: one per held entry,
    each by the entry's own function on the entry's own pointer, front to
    back; the pool is left alive with an empty list, and nothing else
    changes.  In particular, after any sequence [rs] of registrations,
    [clear] performs one deletion per entry held before and per
    registration made, in insertion order, and the pool ends empty. *)
Theorem clear_destroys_every_entry_in_order this tid l σ :
  holds σ this l →
  run (clear this tid) σ
  = Some (tt, with_events (map destroy l) (with_pool this (idle_pool []) σ))
  ∧ ∀ rs, run (register_all this tid rs ;; clear this tid) σ
          = Some (tt, with_events (map destroy (l ++ map entry_of rs))
                        (with_pool this (idle_pool []) σ)).
Proof.
  intros Hidle. split; [by apply clear_run|].
  intros rs. erewrite run_then; [| by apply register_all_run].
  rewrite (clear_run this tid (l ++ map entry_of rs)); [| apply with_pool_lookup].
  by rewrite with_pool_twice.
Qed.

Lemma clear_destroys_every_entry_in_order_witness :
  holds one_pool_world 1
    [scalar_entry "int" 100; array_entry "int" 200; scalar_entry "Foo" 300]
  ∧ run (clear 1 0) one_pool_world
    = Some (tt, {| pools := pools empty_pool_world;
                   trace := [EvDelete "int" 100; EvDeleteArray "int" 200;
                             EvDelete "Foo" 300] |}).
Proof.
  split; [reflexivity|].
  rewrite (proj1 (clear_destroys_every_entry_in_order 1 0 _ one_pool_world eq_refl)).
  vm_compute. reflexivity.
Defined.

(** C8.  On an idle pool that holds nothing, [clear] returns without
    performing a deletion and leaves the whole state as it was; and on any
    idle pool a second [clear] right after the first changes nothing more. *)
Theorem clear_on_empty_is_noop this tid l σ :
  holds σ this l →
  (l = [] → run (clear this tid) σ = Some (tt, σ))
  ∧ run (clear this tid ;; clear this tid) σ = run (clear this tid) σ.
Proof.
  intros Hidle. split.
  - intros Hl. rewrite (clear_run this tid l σ Hidle). rewrite Hl. simpl.
    rewrite with_events_nil. rewrite with_pool_same; [done|]. by rewrite <- Hl.
  - rewrite (clear_run this tid l σ Hidle).
    erewrite run_then; [| by apply clear_run].
    rewrite (clear_run this tid []); [| apply with_pool_lookup].
    simpl. by rewrite with_events_nil, with_pool_events, with_pool_twice.
Qed.

Lemma clear_on_empty_is_noop_witness :
  holds empty_pool_world 1 []
  ∧ run (clear 1 0) empty_pool_world = Some (tt, empty_pool_world).
Proof.
  split; [reflexivity|].
  exact (proj1 (clear_on_empty_is_noop 1 0 [] empty_pool_world eq_refl) eq_refl).
Defined.

(** ** Rolling back the last registration *)

(** C3.  Called on an idle pool: if the list is empty, [remove_last_one]
    returns and leaves the whole state as it was (no deletion); if the
    list is [front ++ [e]], it returns having performed the single deletion
    [destroy e], and the pool holds [front], unchanged and in order. *)
Theorem remove_last_one_destroys_only_last this tid l σ :
  holds σ this l →
  (l = [] → run (remove_last_one this tid) σ = Some (tt, σ))
  ∧ (∀ front e, l = front ++ [e] →
       run (remove_last_one this tid) σ
       = Some (tt, with_events [destroy e] (with_pool this (idle_pool front) σ))).
Proof.
  intros Hidle. split.
  - by apply remove_last_one_run_empty.
  - intros front e. by apply remove_last_one_run_last.
Qed.

Lemma remove_last_one_destroys_only_last_witness :
  holds one_pool_world 1
    [scalar_entry "int" 100; array_entry "int" 200; scalar_entry "Foo" 300]
  ∧ run (remove_last_one 1 0) one_pool_world
    = Some (tt, {| pools := {[ 1%Z := idle_pool [scalar_entry "int" 100;
                                                 array_entry "int" 200] ]};
                   trace := [EvDelete "Foo" 300] |}).
Proof.
  split; [reflexivity|].
  rewrite (proj2 (remove_last_one_destroys_only_last 1 0 _ one_pool_world eq_refl)
             [scalar_entry "int" 100; array_entry "int" 200] (scalar_entry "Foo" 300)
             eq_refl).
  vm_compute. reflexivity.
Defined.

(** ** Registration *)

(** C7.  Called on an idle pool, both [add] and [add_array] return, and the
    value they return is the pointer they were given. *)
Theorem registration_returns_its_pointer T this tid t l σ :
  holds σ this l →
  fst <$> run (add T this tid t) σ = Some t
  ∧ fst <$> run (add_array T this tid t) σ = Some t.
Proof.
  intros Hidle.
  by rewrite (add_run this tid l σ Hidle), (add_array_run this tid l σ Hidle).
Qed.

Lemma registration_returns_its_pointer_witness :
  holds empty_pool_world 1 []
  ∧ fst <$> run (add "int" 1 0 100) empty_pool_world = Some 100%Z
  ∧ fst <$> run (add_array "int" 1 0 100) empty_pool_world = Some 100%Z.
Proof.
  split; [reflexivity|].
  exact (registration_returns_its_pointer "int" 1 0 100 [] empty_pool_world eq_refl).
Defined.

(** ** Transfer between pools *)

Lemma set_objects_same P : set_objects (_objects P) P = P.
Proof. by destruct P. Qed.

(** C2.  For two different live pools, [this] holding the entries of [D]
    and [src] those of [S], [acquire_data] returns; afterwards [this]
    holds [D]'s entries followed by [S]'s, in their order, [src] holds
    none, and the trace is the one before the call: nothing was deleted.
    The last conjunct gives the whole resulting state. *)
Theorem acquire_data_moves_all_entries this src D S σ :
  this ≠ src →
  pools σ !! this = Some D → pools σ !! src = Some S →
  ∃ σ', run (acquire_data this src) σ = Some (tt, σ')
        ∧ entries σ' this = _objects D ++ _objects S
        ∧ entries σ' src = []
        ∧ trace σ' = trace σ
        ∧ σ' = with_pool src (set_objects [] S)
                 (with_pool this (set_objects (_objects D ++ _objects S) D) σ).
Proof.
  intros Hne HD HS. eexists. split; [by apply acquire_data_run|].
  split; [|split; [|done]].
  - unfold entries. by rewrite with_pool_lookup_ne, with_pool_lookup.
  - apply entries_with_pool.
Qed.

Lemma acquire_data_moves_all_entries_witness :
  (1 ≠ 2)%Z
  ∧ pools two_pool_world !! 1%Z = Some (idle_pool [scalar_entry "Y" 11])
  ∧ pools two_pool_world !! 2%Z
    = Some (idle_pool [scalar_entry "X" 21; array_entry "X" 22; scalar_entry "X" 23])
  ∧ ∃ σ', run (acquire_data 1 2) two_pool_world = Some (tt, σ')
          ∧ entries σ' 1 = [scalar_entry "Y" 11; scalar_entry "X" 21;
                            array_entry "X" 22; scalar_entry "X" 23]
          ∧ entries σ' 2 = []
          ∧ trace σ' = [].
Proof.
  split; [done|]. split; [reflexivity|]. split; [reflexivity|].
  destruct (acquire_data_moves_all_entries 1 2 _ _ two_pool_world
              ltac:(done) eq_refl eq_refl) as (σ' & Hrun & Hthis & Hsrc & Htrace & _).
  exists σ'. by repeat split.
Defined.

(** C10.  For live pools [this] and [src] (which may be the same pool),
    if [src] holds nothing then [acquire_data] returns and leaves the
    whole state as it was: the entries of [this], their functions and
    their order, the empty [src], and the trace. *)
Theorem acquire_data_from_empty_is_identity this src D S σ :
  pools σ !! this = Some D → pools σ !! src = Some S →
  _objects S = [] →
  run (acquire_data this src) σ = Some (tt, σ).
Proof.
  intros HD HS Hempty. destruct (decide (this = src)) as [->|Hne].
  - rewrite (acquire_data_self src D σ HD).
    assert (D = S) as -> by congruence.
    by rewrite <- Hempty, set_objects_same, with_pool_same.
  - rewrite (acquire_data_run this src D S σ Hne HD HS).
    rewrite Hempty, app_nil_r, set_objects_same, (with_pool_same this D σ HD).
    by rewrite <- Hempty, set_objects_same, with_pool_same.
Qed.

Lemma acquire_data_from_empty_is_identity_witness :
  pools pool_and_empty_world !! 1%Z
  = Some (idle_pool [scalar_entry "int" 100; array_entry "int" 200;
                     scalar_entry "Foo" 300])
  ∧ pools pool_and_empty_world !! 2%Z = Some (idle_pool [])
  ∧ _objects (idle_pool []) = []
  ∧ run (acquire_data 1 2) pool_and_empty_world = Some (tt, pool_and_empty_world).
Proof.
  split; [reflexivity|]. split; [reflexivity|]. split; [reflexivity|].
  exact (acquire_data_from_empty_is_identity 1 2 _ _ pool_and_empty_world
           eq_refl eq_refl eq_refl).
Defined.

(** ** Destruction of the pool *)

(** C4.  Destroying an idle pool holding [l] returns, and does what
    [clear] does: it performs the same deletions, one per held entry
    ([map destroy l]), the list is empty when the storage is given up, the
    state reached is the one [clear] reaches with the pool gone, and the
    destroyed pool has no entries. *)
Theorem destructor_is_clear this tid l σ :
  holds σ this l →
  ∃ σc σd, run (clear this tid) σ = Some (tt, σc)
           ∧ run (ObjectPool_dtor this tid) σ = Some (tt, σd)
           ∧ trace σd = trace σ ++ map destroy l
           ∧ trace σd = trace σc
           ∧ entries σc this = []
           ∧ σd = without_pool this σc
           ∧ entries σd this = [].
Proof.
  intros Hidle. eexists _, _.
  split; [by apply clear_run|]. split; [by apply ObjectPool_dtor_run|].
  split; [done|]. split; [done|].
  split; [by rewrite entries_with_events, entries_with_pool|].
  split; [|by rewrite entries_with_events, entries_without_pool].
  unfold without_pool, with_events, with_pool. simpl. by rewrite delete_insert_eq.
Qed.

Lemma destructor_is_clear_witness :
  holds one_pool_world 1
    [scalar_entry "int" 100; array_entry "int" 200; scalar_entry "Foo" 300]
  ∧ ∃ σc σd, run (clear 1 0) one_pool_world = Some (tt, σc)
             ∧ run (ObjectPool_dtor 1 0) one_pool_world = Some (tt, σd)
             ∧ trace σd = [EvDelete "int" 100; EvDeleteArray "int" 200;
                           EvDelete "Foo" 300]
             ∧ trace σd = trace σc
             ∧ entries σd 1 = [].
Proof.
  split; [reflexivity|].
  destruct (destructor_is_clear 1 0 _ one_pool_world eq_refl)
    as (σc & σd & Hc & Hd & Ht & Htc & _ & _ & He).
  exists σc, σd. by repeat split.
Defined.

(** ** Accounting for entries over histories of calls *)

Lemma without_pool_fresh this σ : pools σ !! this = None → without_pool this σ = σ.
Proof. intros H. destruct σ. unfold without_pool. simpl in *. by rewrite delete_id. Qed.

Lemma without_with_pool this Q σ :
  without_pool this (with_pool this Q σ) = without_pool this σ.
Proof. unfold without_pool, with_pool. simpl. by rewrite delete_insert_eq. Qed.

Lemma without_with_pool_ne this other Q σ :
  this ≠ other →
  without_pool other (with_pool this Q σ) = with_pool this Q (without_pool other σ).
Proof. intros. unfold without_pool, with_pool. simpl. by rewrite delete_insert_ne. Qed.

Lemma all_entries_with_pool this Q σ :
  all_entries (with_pool this Q σ) ≡ₚ _objects Q ++ all_entries (without_pool this σ).
Proof.
  unfold all_entries, with_pool, without_pool. simpl.
  rewrite <- insert_delete_eq.
  rewrite map_to_list_insert by apply lookup_delete_eq. done.
Qed.

Lemma all_entries_alive this P σ :
  pools σ !! this = Some P →
  all_entries σ ≡ₚ _objects P ++ all_entries (without_pool this σ).
Proof. intros H. by rewrite <- (with_pool_same this P σ H) at 1; rewrite all_entries_with_pool. Qed.

Lemma all_entries_with_events evs σ : all_entries (with_events evs σ) = all_entries σ.
Proof. done. Qed.

Lemma entries_among_all σ this e : e ∈ entries σ this → e ∈ all_entries σ.
Proof.
  unfold entries. destruct (pools σ !! this) as [P|] eqn:HP; [|by intros ?%elem_of_nil].
  intros He. rewrite (all_entries_alive this P σ HP). apply elem_of_app. by left.
Qed.

(** A locked method returns only on an idle pool. *)
Lemma lock_guard_inv {A} this tid (scope : Prog A) σ r σ' :
  run (lock_guard this tid scope) σ = Some (r, σ') → ∃ l, holds σ this l.
Proof.
  intros Hrun. destruct (pools σ !! this) as [[l [|t]]|] eqn:HP.
  - by exists l.
  - by rewrite (lock_guard_held this tid scope σ _ t HP) in Hrun.
  - by rewrite (lock_guard_no_pool this tid scope σ HP) in Hrun.
Qed.

Lemma acquire_data_inv this src σ r σ' :
  run (acquire_data this src) σ = Some (r, σ') →
  ∃ D S, pools σ !! this = Some D ∧ pools σ !! src = Some S.
Proof.
  intros Hrun. unfold acquire_data in Hrun.
  apply run_inv in Hrun as (range & σ1 & Hobj & Hrest).
  rewrite run_atomic in Hobj. cbn [perform] in Hobj.
  apply bind_inv in Hobj as (S & σ1' & HS & Hret).
  apply run_inv in Hrest as ([] & σ2 & Hins & _).
  rewrite run_atomic in Hins. cbn [perform] in Hins.
  apply bind_inv in Hins as (D & σ2' & HD & _).
  unfold get_pool in HS, HD.
  destruct (pools σ !! src) as [S'|] eqn:HS'; [|done].
  injection HS as <- <-. injection Hret as <- <-.
  destruct (pools σ !! this) as [D'|] eqn:HD'; [|done].
  by exists D', S'.
Qed.

(** One call: every deletion performed, and every deletion owed
    afterwards, was owed before or comes from the entry the call
    registers. *)
Lemma run_call_accounting c σ σ' :
  run (call c) σ = Some (tt, σ') →
  deletions_done_or_owed σ'
  ⊆+ deletions_done_or_owed σ ++ map destroy (registered_by c.2).
Proof.
  destruct c as [tid [this|this T t|this T t|this|this|this src|this]];
    unfold call, deletions_done_or_owed; cbn [fst snd registered_by]; intros Hrun.
  - (* constructor *)
    destruct (pools σ !! this) eqn:HP;
      [by rewrite (ObjectPool_ctor_taken _ _ _ HP) in Hrun|].
    rewrite (ObjectPool_ctor_run _ _ HP) in Hrun. injection Hrun as <-.
    rewrite all_entries_with_pool, (without_pool_fresh _ _ HP). simpl.
    by rewrite app_nil_r.
  - (* add *)
    apply run_inv in Hrun as (r & σ1 & Hadd & Hret). injection Hret as <-.
    destruct (lock_guard_inv _ _ _ _ _ _ Hadd) as [l Hidle].
    rewrite (add_run this tid l σ Hidle) in Hadd. injection Hadd as _ <-.
    rewrite all_entries_with_pool, (all_entries_alive this _ σ Hidle). simpl.
    rewrite !map_app. simpl. apply Permutation_submseteq. solve_Permutation.
  - (* add_array *)
    apply run_inv in Hrun as (r & σ1 & Hadd & Hret). injection Hret as <-.
    destruct (lock_guard_inv _ _ _ _ _ _ Hadd) as [l Hidle].
    rewrite (add_array_run this tid l σ Hidle) in Hadd. injection Hadd as _ <-.
    rewrite all_entries_with_pool, (all_entries_alive this _ σ Hidle). simpl.
    rewrite !map_app. simpl. apply Permutation_submseteq. solve_Permutation.
  - (* clear *)
    destruct (lock_guard_inv _ _ _ _ _ _ Hrun) as [l Hidle].
    rewrite (clear_run this tid l σ Hidle) in Hrun. injection Hrun as <-.
    rewrite all_entries_with_events, all_entries_with_pool,
      (all_entries_alive this _ σ Hidle). simpl.
    rewrite !map_app, app_nil_r. apply Permutation_submseteq. solve_Permutation.
  - (* remove_last_one *)
    destruct (lock_guard_inv _ _ _ _ _ _ Hrun) as [l Hidle].
    destruct l as [|e front _] using rev_ind.
    + rewrite (remove_last_one_run_empty this tid [] σ Hidle eq_refl) in Hrun.
      injection Hrun as <-. by rewrite app_nil_r.
    + rewrite (remove_last_one_run_last this tid _ σ Hidle front e eq_refl) in Hrun.
      injection Hrun as <-.
      rewrite all_entries_with_events, all_entries_with_pool,
        (all_entries_alive this _ σ Hidle). simpl.
      rewrite !map_app, app_nil_r. simpl. apply Permutation_submseteq.
      solve_Permutation.
  - (* acquire_data *)
    destruct (acquire_data_inv _ _ _ _ _ Hrun) as (D & S & HD & HS).
    simpl. rewrite app_nil_r. destruct (decide (this = src)) as [->|Hne].
    + rewrite (acquire_data_self src D σ HD) in Hrun. injection Hrun as <-.
      rewrite all_entries_with_pool, (all_entries_alive src D σ HD). simpl.
      rewrite map_app. solve_submseteq.
    + rewrite (acquire_data_run this src D S σ Hne HD HS) in Hrun.
      injection Hrun as <-.
      rewrite all_entries_with_pool, (without_with_pool_ne this src _ _ Hne).
      rewrite all_entries_with_pool. simpl.
      rewrite (all_entries_alive src S σ HS).
      rewrite (all_entries_alive this D (without_pool src σ))
        by (unfold without_pool; simpl; by rewrite lookup_delete_ne).
      rewrite !map_app. apply Permutation_submseteq. solve_Permutation.
  - (* destructor *)
    unfold ObjectPool_dtor in Hrun.
    apply run_inv in Hrun as ([] & σ1 & Hclear & Hrel).
    destruct (lock_guard_inv _ _ _ _ _ _ Hclear) as [l Hidle].
    pose proof (ObjectPool_dtor_run this tid l σ Hidle) as Hd.
    unfold ObjectPool_dtor in Hd. rewrite (run_then _ _ _ _ _ Hclear), Hrel in Hd.
    injection Hd as ->.
    rewrite all_entries_with_events, (all_entries_alive this _ σ Hidle). simpl.
    rewrite !map_app, app_nil_r. apply Permutation_submseteq. solve_Permutation.
Qed.

(** A history of calls: the same accounting, by induction on the history. *)
Lemma run_calls_accounting cs : ∀ σ σ',
  run (calls cs) σ = Some (tt, σ') →
  deletions_done_or_owed σ'
  ⊆+ deletions_done_or_owed σ ++ map destroy (registered cs).
Proof.
  induction cs as [|c cs IH]; intros σ σ' Hrun; cbn [calls] in Hrun.
  - injection Hrun as <-. unfold registered. simpl. by rewrite app_nil_r.
  - apply run_inv in Hrun as ([] & σ1 & Hcall & Hrest).
    etrans; [by apply IH|].
    etrans; [by apply submseteq_skips_r, run_call_accounting|].
    unfold registered. simpl. rewrite map_app. by rewrite <- app_assoc.
Qed.

(** *** Counting *)

Lemma occurrences_app {A} `{EqDecision A} (x : A) l1 l2 :
  occurrences x (l1 ++ l2) = occurrences x l1 + occurrences x l2.
Proof. unfold occurrences. by rewrite filter_app, length_app. Qed.

Lemma occurrences_submseteq {A} `{EqDecision A} (x : A) l k :
  l ⊆+ k → occurrences x l ≤ occurrences x k.
Proof.
  intros [k' Hk]%submseteq_Permutation.
  unfold occurrences. rewrite Hk, filter_app, length_app. lia.
Qed.

Lemma occurrences_elem_of {A} `{EqDecision A} (x : A) l :
  x ∈ l ↔ 0 < occurrences x l.
Proof.
  unfold occurrences. split.
  - intros Hx. assert (Hin : x ∈ filter (x =.) l) by by apply list_elem_of_filter.
    destruct (filter (x =.) l); [by apply elem_of_nil in Hin|simpl; lia].
  - destruct (filter (x =.) l) as [|y f] eqn:Hf; simpl; [lia|]. intros _.
    assert (Hy : y ∈ filter (x =.) l) by (rewrite Hf; left).
    apply list_elem_of_filter in Hy as [-> Hy]. done.
Qed.

Lemma destroy_inj e1 e2 : destroy e1 = destroy e2 → e1 = e2.
Proof.
  destruct e1 as [o1 [T1|T1]], e2 as [o2 [T2|T2]]; unfold destroy; simpl;
    intros Heq; by simplify_eq.
Qed.

Lemma occurrences_destroy e l :
  occurrences (destroy e) (map destroy l) = occurrences e l.
Proof.
  unfold occurrences. induction l as [|x l IH]; [done|]. simpl.
  rewrite !filter_cons. destruct (decide (e = x)) as [->|Hne].
  - rewrite decide_True by done. simpl. by rewrite IH.
  - rewrite decide_False; [done|]. intros Heq. by apply Hne, destroy_inj.
Qed.

Lemma occurrences_accounting cs σ0 σ e :
  run (calls cs) σ0 = Some (tt, σ) →
  occurrences (destroy e) (trace σ) + occurrences e (all_entries σ)
  ≤ occurrences (destroy e) (trace σ0) + occurrences e (all_entries σ0)
    + occurrences e (registered cs).
Proof.
  intros Hrun.
  pose proof (occurrences_submseteq (destroy e) _ _ (run_calls_accounting cs σ0 σ Hrun)) as H.
  unfold deletions_done_or_owed in H.
  by rewrite !occurrences_app, !occurrences_destroy in H.
Qed.

(** An entry registered by a history was registered by one of its calls. *)
Lemma registered_scalar cs T t :
  scalar_entry T t ∈ registered cs → ∃ tid this, (tid, OpAdd this T t) ∈ cs.
Proof.
  intros ([tid o] & Hreg & Hc)%list_elem_of_bind.
  destruct o; simpl in Hreg; try by apply elem_of_nil in Hreg.
  - apply list_elem_of_singleton in Hreg. injection Hreg as <- <-. by exists tid, this.
  - by apply list_elem_of_singleton in Hreg.
Qed.

Lemma registered_array cs T t :
  array_entry T t ∈ registered cs → ∃ tid this, (tid, OpAddArray this T t) ∈ cs.
Proof.
  intros ([tid o] & Hreg & Hc)%list_elem_of_bind.
  destruct o; simpl in Hreg; try by apply elem_of_nil in Hreg.
  - by apply list_elem_of_singleton in Hreg.
  - apply list_elem_of_singleton in Hreg. injection Hreg as <- <-. by exists tid, this.
Qed.

Lemma empty_world_owes_nothing e :
  occurrences (destroy e) (trace empty_world) + occurrences e (all_entries empty_world) = 0.
Proof. unfold all_entries, empty_world. simpl. by rewrite map_to_list_empty. Qed.

(** ** Entries are destroyed at most once *)

(** C5.  Over any history of calls (constructor, [add], [add_array],
    [clear], [remove_last_one], [acquire_data], destructor) that returns,
    started in any state: for every entry value [e], the number of times
    its deletion has been performed plus the number of copies of [e] still
    held by some pool never exceeds the number performed or held at the
    start plus the number of times [e] was registered by the history.
    Hence, for an entry with a single origin, as soon as a call has
    performed its deletion the entry is in no pool's list, and the
    deletion occurs exactly once in the trace; since this holds for every
    history, it holds after every further call. *)
Theorem destroyed_entry_is_removed_and_never_destroyed_again cs σ0 σ e :
  run (calls cs) σ0 = Some (tt, σ) →
  occurrences (destroy e) (trace σ) + occurrences e (all_entries σ)
  ≤ occurrences (destroy e) (trace σ0) + occurrences e (all_entries σ0)
    + occurrences e (registered cs)
  ∧ (occurrences (destroy e) (trace σ0) + occurrences e (all_entries σ0)
     + occurrences e (registered cs) = 1 →
     destroy e ∈ trace σ →
     occurrences (destroy e) (trace σ) = 1 ∧ ∀ this, e ∉ entries σ this).
Proof.
  intros Hrun. pose proof (occurrences_accounting cs σ0 σ e Hrun) as Hle.
  split; [done|]. intros Hone Hdone%occurrences_elem_of.
  split; [lia|]. intros this Hheld%entries_among_all%occurrences_elem_of. lia.
Qed.

Lemma destroyed_entry_is_removed_and_never_destroyed_again_witness :
  run (calls sample_history) empty_world = Some (tt, sample_history_result)
  ∧ occurrences (EvDelete "Foo" 300) (trace sample_history_result) = 1
  ∧ ∀ this, scalar_entry "Foo" 300 ∉ entries sample_history_result this.
Proof.
  assert (Hrun : run (calls sample_history) empty_world = Some (tt, sample_history_result))
    by (vm_compute; reflexivity).
  split; [exact Hrun|].
  apply (proj2 (destroyed_entry_is_removed_and_never_destroyed_again
                  sample_history empty_world sample_history_result
                  (scalar_entry "Foo" 300) Hrun)).
  - vm_compute. reflexivity.
  - apply list_elem_of_In. vm_compute. auto.
Defined.

(** ** Several threads calling the locked methods *)

Example sample_order_runs :
  (λ c : Config, (map at_lock_or_done c.1, c.2))
    <$> schedule sample_order (spawn sample_threads, empty_pool_world)
  = Some ([true; false],
          with_pool 1 {| _objects := [scalar_entry "int" 100; array_entry "int" 200];
                         _lock := LockedBy 1 |} empty_world).
Proof. vm_compute. reflexivity. Qed.

(** *** The programs of the locked methods keep the lock discipline *)

Lemma bracketed_bind {A B} this tid (p : Prog A) (f : A → Prog B) : ∀ h1 h2 h3,
  bracketed this tid h1 h2 p →
  (∀ a, bracketed this tid h2 h3 (f a)) →
  bracketed this tid h1 h3 (p ≫= f).
Proof.
  induction p as [a|X a k IH]; intros h1 h2 h3 Hp Hf.
  - simpl in Hp. subst h2. apply Hf.
  - change (Atomic a k ≫= f) with (Atomic a (λ x, k x ≫= f)).
    simpl in *. destruct (kind a); [| | | |done].
    + destruct Hp as (? & ? & ? & Hk). repeat split; [done..|]. intros x. by eapply IH.
    + destruct Hp as (? & ? & ? & Hk). repeat split; [done..|]. intros x. by eapply IH.
    + destruct Hp as (? & ? & Hk). repeat split; [done..|]. intros x. by eapply IH.
    + destruct Hp as (? & Hk). repeat split; [done..|]. intros x. by eapply IH.
Qed.

Lemma bracketed_lock_guard {A} this tid (scope : Prog A) :
  bracketed this tid true true scope →
  bracketed this tid false false (lock_guard this tid scope).
Proof.
  intros Hscope. unfold lock_guard.
  apply (bracketed_bind _ _ _ _ false true false); [by simpl|]. intros _.
  apply (bracketed_bind _ _ _ _ true true false); [done|]. intros r.
  apply (bracketed_bind _ _ _ _ true false false); by simpl.
Qed.

Lemma bracketed_for_each this tid l (body : Element → Prog unit) :
  (∀ elem, bracketed this tid true true (body elem)) →
  bracketed this tid true true (for_each l body).
Proof.
  intros Hbody. induction l as [|e l IH]; [done|]. cbn [for_each].
  by apply (bracketed_bind _ _ _ _ true true true).
Qed.

Lemma bracketed_call this tid o :
  locked_method_of this o → bracketed this tid false false (call (tid, o)).
Proof.
  destruct o as [d|d T t|d T t|d|d|d s|d]; intros Ho; simpl in Ho; try done;
    subst d; unfold call; cbn [fst snd].
  - (* clear: the loop needs an induction *)
    apply bracketed_lock_guard.
    apply (bracketed_bind this tid (atomic (Objects this)) _ true true true);
      [by simpl|]. intros l.
    apply (bracketed_bind this tid (for_each l _) _ true true true); [|by simpl].
    apply bracketed_for_each. by simpl.
  - (* remove_last_one: both branches *)
    apply bracketed_lock_guard.
    apply (bracketed_bind this tid (atomic (Objects this)) _ true true true);
      [by simpl|]. intros l.
    destruct (decide (l ≠ [])); by simpl.
Qed.

Lemma bracketed_thread_program this tid os :
  Forall (locked_method_of this) os →
  bracketed this tid false false (thread_program tid os).
Proof.
  unfold thread_program. induction 1 as [|o os Ho _ IH]; [done|].
  cbn [map calls].
  apply (bracketed_bind this tid (call (tid, o)) _ false false false); [|done].
  by apply bracketed_call.
Qed.

(** *** What the actions do to the lock, the lists and the trace *)

Lemma perform_acquire this tid σ x σ' :
  perform (Lock this tid) σ = Some (x, σ') →
  ∃ P, pools σ !! this = Some P ∧ _lock P = Unlocked
       ∧ σ' = with_pool this (set_lock (LockedBy tid) P) σ.
Proof.
  simpl. unfold SpinLock_lock. intros (P & σ1 & HP & Hput)%bind_inv.
  unfold get_pool in HP. destruct (pools σ !! this) as [P'|] eqn:Hal; [|done].
  injection HP as <- <-. exists P'. destruct (_lock P') eqn:Hl; [|done].
  injection Hput as _ <-. done.
Qed.

Lemma perform_release this tid σ x σ' :
  perform (Unlock this tid) σ = Some (x, σ') →
  ∃ P, pools σ !! this = Some P ∧ _lock P = LockedBy tid
       ∧ σ' = with_pool this (set_lock Unlocked P) σ.
Proof.
  simpl. unfold SpinLock_unlock. intros (P & σ1 & HP & Hput)%bind_inv.
  unfold get_pool in HP. destruct (pools σ !! this) as [P'|] eqn:Hal; [|done].
  injection HP as <- <-. exists P'. destruct (_lock P') as [|t] eqn:Hl; [done|].
  destruct (decide (t = tid)) as [->|]; [|done].
  injection Hput as _ <-. done.
Qed.

Lemma perform_list {X} (a : Action X) this σ x σ' :
  kind a = KList this →
  perform a σ = Some (x, σ') →
  ∃ P l', pools σ !! this = Some P ∧ σ' = with_pool this (set_objects l' P) σ.
Proof.
  intros Hkind Hrun.
  assert (Hgen : ∀ σ1 (P : ObjectPool), get_pool this σ = Some (P, σ1) →
                 pools σ !! this = Some P ∧ σ1 = σ).
  { intros σ1 P HP. unfold get_pool in HP.
    destruct (pools σ !! this) as [P'|]; [|done]. by injection HP as <- <-. }
  destruct a; simpl in Hkind; try done; injection Hkind as ->; simpl in Hrun.
  - apply bind_inv in Hrun as (P & σ1 & [HP ->]%Hgen & Hret). injection Hret as _ <-.
    exists P, (_objects P). split; [done|].
    by rewrite set_objects_same, with_pool_same.
  - apply bind_inv in Hrun as (P & σ1 & [HP ->]%Hgen & Hret). injection Hret as _ <-.
    by exists P, (_objects P ++ [e]).
  - apply bind_inv in Hrun as (P & σ1 & [HP ->]%Hgen & Hret). injection Hret as _ <-.
    by exists P, [].
  - apply bind_inv in Hrun as (P & σ1 & [HP ->]%Hgen & Hret).
    destruct (last (_objects P)); [|done]. injection Hret as _ <-.
    exists P, (_objects P). split; [done|].
    by rewrite set_objects_same, with_pool_same.
  - apply bind_inv in Hrun as (P & σ1 & [HP ->]%Hgen & Hret).
    destruct (_objects P) eqn:Hl; [done|]. injection Hret as _ <-.
    by exists P, (removelast (e :: l)).
  - apply bind_inv in Hrun as (P & σ1 & [HP ->]%Hgen & Hret). injection Hret as _ <-.
    by exists P, (_objects P ++ range).
Qed.

Lemma perform_delete {X} (a : Action X) σ x σ' :
  kind a = KDelete →
  perform a σ = Some (x, σ') → ∃ ev, σ' = with_events [ev] σ.
Proof.
  intros Hkind Hrun. destruct a; simpl in Hkind; try done.
  simpl in Hrun. injection Hrun as _ <-. by eexists.
Qed.

(** *** The discipline holds at the start and after every step *)

Lemma lock_discipline_spawn this l σ0 oss :
  holds σ0 this l →
  Forall (Forall (locked_method_of this)) oss →
  lock_discipline this (spawn oss, σ0).
Proof.
  intros Hidle Hoss. exists (idle_pool l). split; [done|].
  intros tid p Hp. simpl in Hp. unfold spawn in Hp. rewrite list_lookup_imap in Hp.
  destruct (oss !! tid) as [os|] eqn:Hos; [|done]. injection Hp as <-.
  apply bracketed_thread_program. by eapply Forall_lookup_1.
Qed.

Lemma kind_acquire_inv {X} (a : Action X) this tid :
  kind a = KAcquire this tid →
  ∀ σ x σ', perform a σ = Some (x, σ') →
  ∃ P, pools σ !! this = Some P ∧ _lock P = Unlocked
       ∧ σ' = with_pool this (set_lock (LockedBy tid) P) σ.
Proof.
  intros Hkind σ x σ'. destruct a; simpl in Hkind; try done.
  injection Hkind as -> ->. apply perform_acquire.
Qed.

Lemma kind_release_inv {X} (a : Action X) this tid :
  kind a = KRelease this tid →
  ∀ σ x σ', perform a σ = Some (x, σ') →
  ∃ P, pools σ !! this = Some P ∧ _lock P = LockedBy tid
       ∧ σ' = with_pool this (set_lock Unlocked P) σ.
Proof.
  intros Hkind σ x σ'. destruct a; simpl in Hkind; try done.
  injection Hkind as -> ->. apply perform_release.
Qed.

Lemma advance_inv tid ts σ c' :
  advance tid (ts, σ) = Some c' →
  ∃ X (a : Action X) k x σ',
    ts !! tid = Some (Atomic a k) ∧ perform a σ = Some (x, σ')
    ∧ c' = (<[tid := k x]> ts, σ').
Proof.
  unfold advance. simpl. destruct (ts !! tid) as [[r|X a k]|] eqn:Hts; [done| |done].
  destruct (perform a σ) as [[x σ']|] eqn:Hperf; [|done].
  intros [= <-]. by exists X, a, k, x, σ'.
Qed.

Lemma lock_discipline_advance this tid c c' :
  lock_discipline this c → advance tid c = Some c' → lock_discipline this c'.
Proof.
  destruct c as [ts σ]. intros (P & HP & Hall) Hadv. simpl in HP, Hall.
  apply advance_inv in Hadv as (X & a & k & x & σ' & Hts & Hperf & ->).
  pose proof (Hall tid _ Hts) as Hme. simpl in Hme.
  assert (Hlt : tid < length ts) by by eapply lookup_lt_Some.
  (* the threads after the step, given the lock after the step *)
  assert (Hrest : ∀ P' : ObjectPool,
            bracketed this tid (bool_decide (_lock P' = LockedBy tid)) false (k x) →
            (∀ u, u ≠ tid → bool_decide (_lock P' = LockedBy u)
                            = bool_decide (_lock P = LockedBy u)) →
            ∀ u q, <[tid := k x]> ts !! u = Some q →
                   bracketed this u (bool_decide (_lock P' = LockedBy u)) false q).
  { intros P' Hk Hothers u q Hq. destruct (decide (u = tid)) as [->|Hne].
    - rewrite list_lookup_insert_eq in Hq by done. by injection Hq as <-.
    - rewrite list_lookup_insert_ne in Hq by done. rewrite Hothers by done.
      by apply Hall. }
  destruct (kind a) as [d t|d t|d| |d] eqn:Hkind; [| | | |done].
  - (* the thread takes the lock *)
    destruct Hme as (-> & -> & Hh & Hk).
    destruct (kind_acquire_inv a this tid Hkind σ x σ' Hperf) as (P' & HP' & Hfree & ->).
    assert (P' = P) as -> by congruence.
    exists (set_lock (LockedBy tid) P). split; [apply with_pool_lookup|].
    apply Hrest; cbn [_lock set_lock].
    + rewrite bool_decide_eq_true_2 by done. apply Hk.
    + intros u Hne. rewrite Hfree. apply bool_decide_ext.
      split; [intros [= ?]; done|done].
  - (* the thread releases the lock *)
    destruct Hme as (-> & -> & Hh & Hk).
    destruct (kind_release_inv a this tid Hkind σ x σ' Hperf) as (P' & HP' & Hheld & ->).
    assert (P' = P) as -> by congruence.
    exists (set_lock Unlocked P). split; [apply with_pool_lookup|].
    apply Hrest; cbn [_lock set_lock].
    + rewrite bool_decide_eq_false_2 by done. apply Hk.
    + intros u Hne. rewrite Hheld. apply bool_decide_ext.
      split; [done|intros [= ?]; done].
  - (* the thread reads or changes the list *)
    destruct Hme as (-> & Hh & Hk).
    destruct (perform_list a this σ x σ' Hkind Hperf) as (P' & l' & HP' & ->).
    assert (P' = P) as -> by congruence.
    exists (set_objects l' P). split; [apply with_pool_lookup|].
    apply Hrest; cbn [_lock set_objects]; [|done]. rewrite Hh. apply Hk.
  - (* the thread runs a deletion function *)
    destruct Hme as (Hh & Hk).
    destruct (perform_delete a σ x σ' Hkind Hperf) as (ev & ->).
    exists P. split; [done|].
    apply Hrest; [|done]. rewrite Hh. apply Hk.
Qed.

Lemma lock_discipline_schedule this order : ∀ c c',
  lock_discipline this c → schedule order c = Some c' → lock_discipline this c'.
Proof.
  induction order as [|tid order IH]; intros c c' Hinv Hrun; simpl in Hrun.
  - by injection Hrun as <-.
  - destruct (advance tid c) as [c1|] eqn:Hadv; [|done].
    eapply IH; [|done]. by eapply lock_discipline_advance.
Qed.

(** A thread about to read or change the list, to run a deletion function
    or to release the lock holds the lock. *)
Lemma bracketed_inside_holds {A} this tid (h : bool) (p : Prog A) :
  bracketed this tid h false p →
  match p with
  | Done _ => True
  | Atomic a _ => match kind a with KAcquire _ _ => True | _ => h = true end
  end.
Proof.
  destruct p as [r|X a k]; [done|]. simpl.
  destruct (kind a); [done| | | |done]; intros H; apply H.
Qed.

(** C9.  Threads that call [add], [add_array], [clear] and
    [remove_last_one] on one idle pool, their actions interleaved in any
    order: in every configuration reached, the pool is alive and
    - a thread that is inside one of these methods (it has not finished and
      its next action is not to take the lock) holds the lock;
    - so two threads inside these methods are the same thread: the calls
      are serialized;
    - every step that changes the list of entries or performs a deletion
      is taken by the thread holding the lock, which still holds it after
      the step: every mutation happens inside the critical section. *)
Theorem locked_methods_are_serialized this l σ0 oss order ts σ :
  holds σ0 this l →
  Forall (Forall (locked_method_of this)) oss →
  schedule order (spawn oss, σ0) = Some (ts, σ) →
  ∃ P, pools σ !! this = Some P
       ∧ (∀ tid p, ts !! tid = Some p → at_lock_or_done p = false →
                   _lock P = LockedBy tid)
       ∧ (∀ tid u p q, ts !! tid = Some p → ts !! u = Some q →
                       at_lock_or_done p = false → at_lock_or_done q = false →
                       tid = u)
       ∧ (∀ tid ts' σ', advance tid (ts, σ) = Some (ts', σ') →
                        entries σ' this ≠ entries σ this ∨ trace σ' ≠ trace σ →
                        _lock P = LockedBy tid
                        ∧ ∃ P', pools σ' !! this = Some P' ∧ _lock P' = LockedBy tid).
Proof.
  intros Hidle Hoss Hrun.
  destruct (lock_discipline_schedule this order _ _
              (lock_discipline_spawn this l σ0 oss Hidle Hoss) Hrun)
    as (P & HP & Hall).
  simpl in HP, Hall. exists P. split; [done|].
  assert (Hin : ∀ tid p, ts !! tid = Some p → at_lock_or_done p = false →
                         _lock P = LockedBy tid).
  { intros tid p Hp Hinside.
    pose proof (bracketed_inside_holds _ _ _ _ (Hall tid p Hp)) as Hh.
    destruct p as [r|X a k]; [done|]. simpl in Hinside.
    destruct (kind a); try done; by apply bool_decide_eq_true_1 in Hh. }
  split; [done|]. split.
  - intros tid u p q Hp Hq Hpin Hqin.
    pose proof (Hin tid p Hp Hpin) as Ht. pose proof (Hin u q Hq Hqin) as Hu.
    congruence.
  - intros tid ts' σ' Hadv Hchange.
    apply advance_inv in Hadv as (X & a & k & x & σ1 & Hts & Hperf & [= -> ->]).
    pose proof (Hall tid _ Hts) as Hme. simpl in Hme.
    destruct (kind a) as [d t|d t|d| |d] eqn:Hkind; [| | | |done].
    + destruct Hme as (-> & -> & _).
      destruct (kind_acquire_inv a this tid Hkind σ x σ1 Hperf) as (P' & HP' & _ & ->).
      exfalso. destruct Hchange as [Hc|Hc]; apply Hc; [|done].
      rewrite entries_with_pool. unfold entries. by rewrite HP'.
    + destruct Hme as (-> & -> & _).
      destruct (kind_release_inv a this tid Hkind σ x σ1 Hperf) as (P' & HP' & _ & ->).
      exfalso. destruct Hchange as [Hc|Hc]; apply Hc; [|done].
      rewrite entries_with_pool. unfold entries. by rewrite HP'.
    + destruct Hme as (-> & Hh%bool_decide_eq_true_1 & _). split; [done|].
      destruct (perform_list a this σ x σ1 Hkind Hperf) as (P' & l' & HP' & ->).
      assert (P' = P) as -> by congruence.
      exists (set_objects l' P). split; [apply with_pool_lookup|done].
    + destruct Hme as (Hh%bool_decide_eq_true_1 & _). split; [done|].
      destruct (perform_delete a σ x σ1 Hkind Hperf) as (ev & ->).
      by exists P.
Qed.

Lemma locked_methods_are_serialized_witness :
  holds empty_pool_world 1 []
  ∧ Forall (Forall (locked_method_of 1)) sample_threads
  ∧ schedule sample_order (spawn sample_threads, empty_pool_world)
    = Some (sample_config.1, sample_config.2)
  ∧ ∃ P, pools sample_config.2 !! 1%Z = Some P
         ∧ (∀ tid p, sample_config.1 !! tid = Some p → at_lock_or_done p = false →
                     _lock P = LockedBy tid)
         ∧ (∀ tid ts' σ', advance tid (sample_config.1, sample_config.2) = Some (ts', σ') →
                          entries σ' 1 ≠ entries sample_config.2 1
                          ∨ trace σ' ≠ trace sample_config.2 →
                          _lock P = LockedBy tid).
Proof.
  assert (H1 : holds empty_pool_world 1 []) by reflexivity.
  assert (H2 : Forall (Forall (locked_method_of 1)) sample_threads)
    by (repeat constructor).
  assert (H3 : schedule sample_order (spawn sample_threads, empty_pool_world)
               = Some (sample_config.1, sample_config.2))
    by (vm_compute; reflexivity).
  split; [exact H1|]. split; [exact H2|]. split; [exact H3|].
  destruct (locked_methods_are_serialized 1 [] empty_pool_world sample_threads
              sample_order sample_config.1 sample_config.2 H1 H2 H3)
    as (P & HP & Hin & _ & Hstep).
  exists P. split; [exact HP|]. split; [exact Hin|].
  intros tid ts' σ' Hadv Hchange. exact (proj1 (Hstep tid ts' σ' Hadv Hchange)).
Defined.

(** [acquire_data] is not one of the locked methods: a thread can move the
    entries of a pool away while another thread holds the lock of that pool
    (here thread 0 has taken the lock of pool 2 and thread 1 then empties
    its list).  This is the hazard the design documents; the theorem above
    is about the four locked methods only. *)
Example acquire_data_ignores_the_lock :
  (λ c : Config, (pools c.2 !! 2%Z, entries c.2 1))
    <$> schedule [0; 1; 1; 1] (spawn racing_threads, two_pool_world)
  = Some (Some {| _objects := []; _lock := LockedBy 0 |},
          [scalar_entry "Y" 11; scalar_entry "X" 21; array_entry "X" 22;
           scalar_entry "X" 23]).
Proof. vm_compute. reflexivity. Qed.

(** ** The scenarios of the design document *)

(** LIFO rollback: after registering [A], [B], [C], two calls of
    [remove_last_one] delete [C] then [B], and [A] is still held. *)
Example lifo_rollback :
  run (ObjectPool_ctor 1 ;; add "A" 1 0 10 ;; add "B" 1 0 20 ;; add "C" 1 0 30 ;;
       remove_last_one 1 0 ;; remove_last_one 1 0) empty_world
  = Some (tt, {| pools := {[ 1%Z := idle_pool [scalar_entry "A" 10] ]};
                 trace := [EvDelete "C" 30; EvDelete "B" 20] |}).
Proof. vm_compute. reflexivity. Qed.

(** An [int] and an array of [int] registered, then [clear]: one scalar
    deletion, one array deletion, and no entry left. *)
Example register_scalar_and_array_then_clear :
  run (ObjectPool_ctor 1 ;; add "int" 1 0 5 ;; add_array "int" 1 0 6 ;; clear 1 0)
    empty_world
  = Some (tt, {| pools := {[ 1%Z := idle_pool [] ]};
                 trace := [EvDelete "int" 5; EvDeleteArray "int" 6] |}).
Proof. vm_compute. reflexivity. Qed.

(** * Further properties of the methods *)

(** ** The whole life of a pool *)

(** X1.  A pool constructed at a free address, filled by any sequence of
    registrations and then destroyed: the calls return, the deletion
    functions called are exactly those of the registrations, one each, in
    registration order, and the address holds no pool any more. *)
Theorem pool_lifetime_deletes_what_was_registered this tid rs σ :
  pools σ !! this = None →
  ∃ σ', run (ObjectPool_ctor this ;; register_all this tid rs ;;
             ObjectPool_dtor this tid) σ = Some (tt, σ')
        ∧ trace σ' = trace σ ++ map destroy (map entry_of rs)
        ∧ pools σ' !! this = None.
Proof.
  intros Hfree. eexists. split; [|split].
  - erewrite run_then; [| by apply ObjectPool_ctor_run].
    erewrite run_then; [| apply (register_all_run this tid rs []), with_pool_lookup].
    rewrite with_pool_twice, app_nil_l.
    apply (ObjectPool_dtor_run this tid (map entry_of rs)), with_pool_lookup.
  - done.
  - simpl. apply lookup_delete_eq.
Qed.

Lemma pool_lifetime_deletes_what_was_registered_witness :
  pools one_pool_world !! 7%Z = None
  ∧ ∃ σ', run (ObjectPool_ctor 7 ;;
               register_all 7 0 [RegArray "int" 70; RegScalar "Foo" 71] ;;
               ObjectPool_dtor 7 0) one_pool_world = Some (tt, σ')
          ∧ trace σ' = [EvDeleteArray "int" 70; EvDelete "Foo" 71]
          ∧ pools σ' !! 7%Z = None.
Proof.
  split; [reflexivity|].
  exact (pool_lifetime_deletes_what_was_registered 7 0
           [RegArray "int" 70; RegScalar "Foo" 71] one_pool_world eq_refl).
Defined.

(** ** Rollback *)

(** X2.  On an idle pool, a registration followed by [remove_last_one]
    leaves the pool exactly as it was and deletes the object just
    registered, and nothing else: as a scalar after [add], as an array
    after [add_array]. *)
Theorem registration_rolled_back T this tid t l σ :
  holds σ this l →
  run (add T this tid t ;; remove_last_one this tid) σ
  = Some (tt, with_events [EvDelete T t] σ)
  ∧ run (add_array T this tid t ;; remove_last_one this tid) σ
    = Some (tt, with_events [EvDeleteArray T t] σ).
Proof.
  intros Hidle. split.
  - erewrite run_then; [| by apply add_run].
    erewrite remove_last_one_run_last; [| apply with_pool_lookup | done].
    by rewrite with_pool_twice, (with_pool_same this _ σ Hidle).
  - erewrite run_then; [| by apply add_array_run].
    erewrite remove_last_one_run_last; [| apply with_pool_lookup | done].
    by rewrite with_pool_twice, (with_pool_same this _ σ Hidle).
Qed.

Lemma registration_rolled_back_witness :
  holds one_pool_world 1
    [scalar_entry "int" 100; array_entry "int" 200; scalar_entry "Foo" 300]
  ∧ run (add_array "Bar" 1 0 400 ;; remove_last_one 1 0) one_pool_world
    = Some (tt, with_events [EvDeleteArray "Bar" 400] one_pool_world).
Proof.
  split; [reflexivity|].
  exact (proj2 (registration_rolled_back "Bar" 1 0 400 _ one_pool_world eq_refl)).
Defined.

(** X3.  [remove_last_one] called [n] times on an idle pool holding [l]
    deletes the last [n] entries of [l], newest first, and keeps the
    others in their order; once the list is empty further calls do
    nothing.  (With [n] the length of [l] the deletions are those of
    [clear] in the opposite order.) *)
Theorem remove_last_n_is_lifo this tid n : ∀ l σ,
  holds σ this l →
  run (remove_last_n this tid n) σ
  = Some (tt, with_events (map destroy (take n (rev l)))
                (with_pool this (idle_pool (rev (drop n (rev l)))) σ)).
Proof.
  induction n as [|n IH]; intros l σ Hidle; cbn [remove_last_n].
  - simpl. rewrite drop_0, rev_involutive, with_events_nil.
    by rewrite (with_pool_same this _ σ Hidle).
  - destruct l as [|e front _] using rev_ind.
    + erewrite run_then; [| exact (remove_last_one_run_empty this tid [] σ Hidle eq_refl)].
      rewrite (IH [] σ Hidle). simpl. by rewrite !take_nil, !drop_nil.
    + erewrite run_then;
        [| exact (remove_last_one_run_last this tid _ σ Hidle front e eq_refl)].
      rewrite (IH front); [| apply with_pool_lookup].
      rewrite rev_app_distr. simpl.
      rewrite with_pool_events, with_pool_twice, with_events_app. done.
Qed.

Lemma remove_last_n_is_lifo_witness :
  holds one_pool_world 1
    [scalar_entry "int" 100; array_entry "int" 200; scalar_entry "Foo" 300]
  ∧ run (remove_last_n 1 0 2) one_pool_world
    = Some (tt, with_events [EvDelete "Foo" 300; EvDeleteArray "int" 200]
                  (with_pool 1 (idle_pool [scalar_entry "int" 100]) one_pool_world)).
Proof.
  split; [reflexivity|].
  exact (remove_last_n_is_lifo 1 0 2 _ one_pool_world eq_refl).
Defined.

(** ** Handing entries over *)

Lemma World_eq σ1 σ2 :
  trace σ1 = trace σ2 → (∀ i, pools σ1 !! i = pools σ2 !! i) → σ1 = σ2.
Proof.
  destruct σ1 as [m1 t1], σ2 as [m2 t2]. simpl. intros -> Hm.
  f_equal. by apply map_eq.
Qed.

(** X4.  The hand-over of a scope: after [this->acquire_data(src)] on two
    different idle pools, destroying [src] deletes nothing, and a later
    [clear] of [this] deletes every entry once: those [this] held first,
    then those taken over from [src], each group in its order. *)
Theorem handed_over_entries_are_deleted_by_the_new_owner this src tid D S σ :
  this ≠ src →
  holds σ this D → holds σ src S →
  run (acquire_data this src ;; ObjectPool_dtor src tid) σ
  = Some (tt, with_pool this (idle_pool (D ++ S)) (without_pool src σ))
  ∧ run (acquire_data this src ;; ObjectPool_dtor src tid ;; clear this tid) σ
    = Some (tt, with_events (map destroy D ++ map destroy S)
                  (with_pool this (idle_pool []) (without_pool src σ))).
Proof.
  intros Hne HD HS.
  assert (Hfirst : run (acquire_data this src ;; ObjectPool_dtor src tid) σ
                   = Some (tt, with_pool this (idle_pool (D ++ S)) (without_pool src σ))).
  { erewrite run_then; [| by apply acquire_data_run].
    rewrite (ObjectPool_dtor_run src tid []); [| apply with_pool_lookup].
    simpl. by rewrite with_events_nil, without_with_pool, without_with_pool_ne. }
  split; [done|].
  change (acquire_data this src ;; ObjectPool_dtor src tid ;; clear this tid)
    with (acquire_data this src ≫= λ _, ObjectPool_dtor src tid ≫= λ _, clear this tid).
  erewrite run_then; [| by apply acquire_data_run].
  erewrite run_then;
    [| by apply (ObjectPool_dtor_run src tid []), with_pool_lookup].
  simpl map. rewrite with_events_nil, without_with_pool, without_with_pool_ne by done.
  rewrite (clear_run this tid (D ++ S)); [| apply with_pool_lookup].
  by rewrite with_pool_twice, map_app.
Qed.

Lemma handed_over_entries_are_deleted_by_the_new_owner_witness :
  (1 ≠ 2)%Z
  ∧ holds two_pool_world 1 [scalar_entry "Y" 11]
  ∧ holds two_pool_world 2 [scalar_entry "X" 21; array_entry "X" 22; scalar_entry "X" 23]
  ∧ run (acquire_data 1 2 ;; ObjectPool_dtor 2 0 ;; clear 1 0) two_pool_world
    = Some (tt, with_events [EvDelete "Y" 11; EvDelete "X" 21; EvDeleteArray "X" 22;
                             EvDelete "X" 23] empty_pool_world).
Proof.
  split; [done|]. split; [reflexivity|]. split; [reflexivity|].
  rewrite (proj2 (handed_over_entries_are_deleted_by_the_new_owner 1 2 0 _ _
                    two_pool_world ltac:(done) eq_refl eq_refl)).
  vm_compute. reflexivity.
Defined.

(** X5.  Taking over is associative: for three different live pools,
    [a] taking over [b] and then [c] ends in the same state as [b] taking
    over [c] and then [a] taking over [b]: [a] holds its entries, then
    those of [b], then those of [c]; [b] and [c] are empty; nothing is
    deleted. *)
Theorem acquire_data_chains a b c A B C σ :
  a ≠ b → a ≠ c → b ≠ c →
  pools σ !! a = Some A → pools σ !! b = Some B → pools σ !! c = Some C →
  run (acquire_data a b ;; acquire_data a c) σ
  = Some (tt, with_pool a (set_objects (_objects A ++ _objects B ++ _objects C) A)
                (with_pool b (set_objects [] B) (with_pool c (set_objects [] C) σ)))
  ∧ run (acquire_data b c ;; acquire_data a b) σ
    = run (acquire_data a b ;; acquire_data a c) σ.
Proof.
  intros Hab Hac Hbc HA HB HC.
  assert (Hleft : run (acquire_data a b ;; acquire_data a c) σ
    = Some (tt, with_pool a (set_objects (_objects A ++ _objects B ++ _objects C) A)
                  (with_pool b (set_objects [] B) (with_pool c (set_objects [] C) σ)))).
  { erewrite run_then; [| by apply acquire_data_run].
    rewrite (acquire_data_run a c (set_objects (_objects A ++ _objects B) A) C _ Hac);
      [| by rewrite with_pool_lookup_ne, with_pool_lookup
       | by rewrite !with_pool_lookup_ne].
    f_equal. f_equal. apply World_eq; [done|]. intros i.
    unfold with_pool, set_objects. simpl. rewrite <- app_assoc.
    destruct (decide (i = a)) as [->|]; [by simplify_map_eq|].
    destruct (decide (i = b)) as [->|]; [by simplify_map_eq|].
    destruct (decide (i = c)) as [->|]; by simplify_map_eq. }
  split; [done|]. rewrite Hleft.
  erewrite run_then; [| by apply acquire_data_run].
  rewrite (acquire_data_run a b A (set_objects (_objects B ++ _objects C) B) _ Hab);
    [| by rewrite !with_pool_lookup_ne
     | by rewrite with_pool_lookup_ne, with_pool_lookup].
  f_equal. f_equal. apply World_eq; [done|]. intros i.
  unfold with_pool, set_objects. simpl.
  destruct (decide (i = a)) as [->|]; [by simplify_map_eq|].
  destruct (decide (i = b)) as [->|]; [by simplify_map_eq|].
  destruct (decide (i = c)) as [->|]; by simplify_map_eq.
Qed.

Lemma acquire_data_chains_witness :
  (1 ≠ 2)%Z ∧ (1 ≠ 3)%Z ∧ (2 ≠ 3)%Z
  ∧ run (acquire_data 2 3 ;; acquire_data 1 2) three_pool_world
    = run (acquire_data 1 2 ;; acquire_data 1 3) three_pool_world.
Proof.
  split; [done|]. split; [done|]. split; [done|].
  exact (proj2 (acquire_data_chains 1 2 3 _ _ _ three_pool_world
                  ltac:(done) ltac:(done) ltac:(done) eq_refl eq_refl eq_refl)).
Defined.

(** X6.  Taking over twice from the same pool is taking over once: the
    second call finds the source empty and changes nothing. *)
Theorem acquire_data_twice this src D S σ :
  this ≠ src →
  pools σ !! this = Some D → pools σ !! src = Some S →
  run (acquire_data this src ;; acquire_data this src) σ
  = run (acquire_data this src) σ.
Proof.
  intros Hne HD HS. rewrite (acquire_data_run this src D S σ Hne HD HS).
  erewrite run_then; [| by apply acquire_data_run].
  rewrite (acquire_data_run this src (set_objects (_objects D ++ _objects S) D)
             (set_objects [] S) _ Hne);
    [| by rewrite with_pool_lookup_ne, with_pool_lookup | apply with_pool_lookup].
  f_equal. f_equal. apply World_eq; [done|]. intros i.
  unfold with_pool, set_objects. simpl. rewrite app_nil_r.
  destruct (decide (i = this)) as [->|]; [by simplify_map_eq|].
  destruct (decide (i = src)) as [->|]; by simplify_map_eq.
Qed.

Lemma acquire_data_twice_witness :
  (1 ≠ 2)%Z
  ∧ run (acquire_data 1 2 ;; acquire_data 1 2) two_pool_world
    = run (acquire_data 1 2) two_pool_world.
Proof.
  split; [done|].
  exact (acquire_data_twice 1 2 _ _ two_pool_world ltac:(done) eq_refl eq_refl).
Defined.

(** ** Every call, characterised *)

(** A call that returns was made on live pools, with the lock free if the
    method takes it, and has had exactly the effect listed in
    [effect_of]. *)
Lemma run_call_inv tid o σ σ' :
  run (call (tid, o)) σ = Some (tt, σ') → effect_of o σ σ'.
Proof.
  destruct o as [this|this T t|this T t|this|this|this src|this];
    unfold call; cbn [fst snd effect_of]; intros Hrun.
  - destruct (pools σ !! this) eqn:HP;
      [by rewrite (ObjectPool_ctor_taken _ _ _ HP) in Hrun|].
    rewrite (ObjectPool_ctor_run _ _ HP) in Hrun. by injection Hrun as <-.
  - apply run_inv in Hrun as (r & σ1 & Hadd & Hret). injection Hret as <-.
    destruct (lock_guard_inv _ _ _ _ _ _ Hadd) as [l Hidle].
    rewrite (add_run this tid l σ Hidle) in Hadd. injection Hadd as _ <-.
    by exists l.
  - apply run_inv in Hrun as (r & σ1 & Hadd & Hret). injection Hret as <-.
    destruct (lock_guard_inv _ _ _ _ _ _ Hadd) as [l Hidle].
    rewrite (add_array_run this tid l σ Hidle) in Hadd. injection Hadd as _ <-.
    by exists l.
  - destruct (lock_guard_inv _ _ _ _ _ _ Hrun) as [l Hidle].
    rewrite (clear_run this tid l σ Hidle) in Hrun. injection Hrun as <-.
    by exists l.
  - destruct (lock_guard_inv _ _ _ _ _ _ Hrun) as [l Hidle].
    destruct l as [|e front _] using rev_ind.
    + rewrite (remove_last_one_run_empty this tid [] σ Hidle eq_refl) in Hrun.
      injection Hrun as <-. by left.
    + rewrite (remove_last_one_run_last this tid _ σ Hidle front e eq_refl) in Hrun.
      injection Hrun as <-. right. by exists front, e.
  - destruct (acquire_data_inv _ _ _ _ _ Hrun) as (D & S & HD & HS).
    exists D, S. split; [done|]. split; [done|].
    destruct (decide (this = src)) as [->|Hne].
    + rewrite (acquire_data_self src D σ HD) in Hrun. by injection Hrun as <-.
    + rewrite (acquire_data_run this src D S σ Hne HD HS) in Hrun.
      by injection Hrun as <-.
  - unfold ObjectPool_dtor in Hrun.
    apply run_inv in Hrun as ([] & σ1 & Hclear & Hrel).
    destruct (lock_guard_inv _ _ _ _ _ _ Hclear) as [l Hidle].
    pose proof (ObjectPool_dtor_run this tid l σ Hidle) as Hd.
    unfold ObjectPool_dtor in Hd. rewrite (run_then _ _ _ _ _ Hclear), Hrel in Hd.
    injection Hd as ->. by exists l.
Qed.

(** An induction principle for histories that return. *)
Lemma run_calls_ind (R : World → list (thread_id * Op) → World → Prop) :
  (∀ σ, R σ [] σ) →
  (∀ σ tid o σ1 cs σ', effect_of o σ σ1 → run (calls cs) σ1 = Some (tt, σ') →
                       R σ1 cs σ' → R σ ((tid, o) :: cs) σ') →
  ∀ cs σ σ', run (calls cs) σ = Some (tt, σ') → R σ cs σ'.
Proof.
  intros Hnil Hcons. induction cs as [|[tid o] cs IH]; intros σ σ' Hrun;
    cbn [calls] in Hrun.
  - injection Hrun as <-. apply Hnil.
  - apply run_inv in Hrun as ([] & σ1 & Hcall & Hrest).
    eapply Hcons; [by eapply run_call_inv|done|by apply IH].
Qed.

(** ** Nothing is lost *)

Lemma effect_exact o σ σ' :
  effect_of o σ σ' → ¬ self_acquire o →
  deletions_done_or_owed σ'
  ≡ₚ deletions_done_or_owed σ ++ map destroy (registered_by o).
Proof.
  destruct o as [this|this T t|this T t|this|this|this src|this];
    unfold deletions_done_or_owed; cbn [effect_of self_acquire registered_by];
    intros Heff Hself.
  - destruct Heff as [HP ->].
    rewrite all_entries_with_pool, (without_pool_fresh _ _ HP). simpl.
    by rewrite app_nil_r.
  - destruct Heff as (l & Hidle & ->).
    rewrite all_entries_with_pool, (all_entries_alive this _ σ Hidle). simpl.
    rewrite !map_app. simpl. solve_Permutation.
  - destruct Heff as (l & Hidle & ->).
    rewrite all_entries_with_pool, (all_entries_alive this _ σ Hidle). simpl.
    rewrite !map_app. simpl. solve_Permutation.
  - destruct Heff as (l & Hidle & ->).
    rewrite all_entries_with_events, all_entries_with_pool,
      (all_entries_alive this _ σ Hidle). simpl.
    rewrite !map_app, app_nil_r. solve_Permutation.
  - destruct Heff as [[Hidle ->]|(front & e & Hidle & ->)]; [by rewrite app_nil_r|].
    rewrite all_entries_with_events, all_entries_with_pool,
      (all_entries_alive this _ σ Hidle). simpl.
    rewrite !map_app, app_nil_r. simpl. solve_Permutation.
  - destruct Heff as (D & S & HD & HS & ->).
    rewrite decide_False by done. simpl. rewrite app_nil_r.
    rewrite all_entries_with_pool, (without_with_pool_ne this src _ _ Hself).
    rewrite all_entries_with_pool. simpl.
    rewrite (all_entries_alive src S σ HS).
    rewrite (all_entries_alive this D (without_pool src σ))
      by (unfold without_pool; simpl; by rewrite lookup_delete_ne).
    rewrite !map_app. solve_Permutation.
  - destruct Heff as (l & Hidle & ->).
    rewrite all_entries_with_events, (all_entries_alive this _ σ Hidle). simpl.
    rewrite !map_app, app_nil_r. solve_Permutation.
Qed.

Lemma run_calls_exact cs σ σ' :
  run (calls cs) σ = Some (tt, σ') →
  Forall (λ c, ¬ self_acquire c.2) cs →
  deletions_done_or_owed σ'
  ≡ₚ deletions_done_or_owed σ ++ map destroy (registered cs).
Proof.
  intros Hrun. revert cs σ σ' Hrun.
  apply (run_calls_ind (λ σ cs σ', Forall (λ c, ¬ self_acquire c.2) cs →
           deletions_done_or_owed σ'
           ≡ₚ deletions_done_or_owed σ ++ map destroy (registered cs))).
  - intros σ _. unfold registered. simpl. by rewrite app_nil_r.
  - intros σ tid o σ1 cs σ' Heff _ IH Hall.
    apply Forall_cons in Hall as [Ho Hcs].
    rewrite (IH Hcs), (effect_exact o σ σ1 Heff Ho).
    unfold registered. simpl. rewrite map_app. by rewrite <- app_assoc.
Qed.

Lemma nothing_owed_without_pools σ :
  pools σ = ∅ → deletions_done_or_owed σ = trace σ.
Proof.
  intros Hnone. unfold deletions_done_or_owed, all_entries.
  rewrite Hnone, map_to_list_empty. simpl. by rewrite app_nil_r.
Qed.

(** ** Scalar and array deletion *)

Lemma occurrences_Permutation {A} `{EqDecision A} (x : A) l k :
  l ≡ₚ k → occurrences x l = occurrences x k.
Proof. intros Hlk. unfold occurrences. by rewrite Hlk. Qed.

(** Without a pool taking over from itself, the deletions of an entry
    performed and the copies of it still held are as many as its
    registrations. *)
Lemma occurrences_exact cs σ e :
  run (calls cs) empty_world = Some (tt, σ) →
  Forall (λ c, ¬ self_acquire c.2) cs →
  occurrences (destroy e) (trace σ) + occurrences e (all_entries σ)
  = occurrences e (registered cs).
Proof.
  intros Hrun Hall. pose proof (run_calls_exact cs empty_world σ Hrun Hall) as H.
  rewrite (nothing_owed_without_pools empty_world eq_refl) in H. simpl in H.
  apply (occurrences_Permutation (destroy e)) in H.
  unfold deletions_done_or_owed in H.
  by rewrite occurrences_app, !occurrences_destroy in H.
Qed.

Lemma held_entry_has_owner σ e : e ∈ all_entries σ → ∃ owner, e ∈ entries σ owner.
Proof.
  unfold all_entries. intros ([owner P] & He & HP)%list_elem_of_bind.
  apply elem_of_map_to_list in HP. exists owner. unfold entries. by rewrite HP.
Qed.

Lemma registered_by_add cs tid this T p :
  (tid, OpAdd this T p) ∈ cs → scalar_entry T p ∈ registered cs.
Proof.
  intros Hc. unfold registered. apply list_elem_of_bind.
  exists (tid, OpAdd this T p). split; [|done]. simpl. by apply list_elem_of_singleton.
Qed.

Lemma registered_by_add_array cs tid this T p :
  (tid, OpAddArray this T p) ∈ cs → array_entry T p ∈ registered cs.
Proof.
  intros Hc. unfold registered. apply list_elem_of_bind.
  exists (tid, OpAddArray this T p). split; [|done]. simpl.
  by apply list_elem_of_singleton.
Qed.

(** C6.  Over any history of calls that returns, started with no pool and
    an empty trace.

    From registration to destruction (no pool taking over from itself):
    a pointer [p] registered by [add<T>] is, at every later point, either
    held by some pool as the entry with the scalar function for [T], or
    has been deleted by the scalar deletion [delete (T* )p]; registered by
    [add_array<T>] it is held with the array function or has been deleted
    by [delete[] (T* )p].  The scalar (array) deletions of [p] at [T]
    performed, plus the entries still held with that function, are exactly
    as many as the calls [add<T>(p)] ([add_array<T>(p)]).  Once no pool is
    left, every registration has been destroyed by the deletion of its own
    form.

    From destruction to registration: every scalar deletion that was
    performed belongs to an [add<T>(p)] call, every array deletion to an
    [add_array<T>(p)] call, and every entry still held carries the function
    of the form and type it was registered with. *)
Theorem destruction_kind_is_registration_kind cs σ :
  run (calls cs) empty_world = Some (tt, σ) →
  (Forall (λ c, ¬ self_acquire c.2) cs →
     (∀ tid this T p, (tid, OpAdd this T p) ∈ cs →
        EvDelete T p ∈ trace σ ∨ ∃ owner, scalar_entry T p ∈ entries σ owner)
     ∧ (∀ tid this T p, (tid, OpAddArray this T p) ∈ cs →
          EvDeleteArray T p ∈ trace σ ∨ ∃ owner, array_entry T p ∈ entries σ owner)
     ∧ (∀ T p,
          occurrences (EvDelete T p) (trace σ)
          + occurrences (scalar_entry T p) (all_entries σ)
          = occurrences (scalar_entry T p) (registered cs)
          ∧ occurrences (EvDeleteArray T p) (trace σ)
            + occurrences (array_entry T p) (all_entries σ)
            = occurrences (array_entry T p) (registered cs))
     ∧ (pools σ = ∅ →
          (∀ tid this T p, (tid, OpAdd this T p) ∈ cs → EvDelete T p ∈ trace σ)
          ∧ (∀ tid this T p, (tid, OpAddArray this T p) ∈ cs →
               EvDeleteArray T p ∈ trace σ)))
  ∧ (∀ T p, EvDelete T p ∈ trace σ → ∃ tid this, (tid, OpAdd this T p) ∈ cs)
  ∧ (∀ T p, EvDeleteArray T p ∈ trace σ → ∃ tid this, (tid, OpAddArray this T p) ∈ cs)
  ∧ (∀ this e, e ∈ entries σ this →
       match delete_fn e with
       | delete_scalar T => ∃ tid owner, (tid, OpAdd owner T (obj e)) ∈ cs
       | delete_array T => ∃ tid owner, (tid, OpAddArray owner T (obj e)) ∈ cs
       end).
Proof.
  intros Hrun. split.
  - intros Hall.
    assert (Hfwd : ∀ e, e ∈ registered cs →
                        destroy e ∈ trace σ ∨ ∃ owner, e ∈ entries σ owner).
    { intros e He%occurrences_elem_of.
      pose proof (occurrences_exact cs σ e Hrun Hall) as Hcount.
      destruct (decide (0 < occurrences (destroy e) (trace σ))) as [Hdone|Hnot].
      - left. by apply occurrences_elem_of.
      - right. apply held_entry_has_owner, occurrences_elem_of. lia. }
    assert (Hgone : pools σ = ∅ → ∀ e, e ∈ registered cs → destroy e ∈ trace σ).
    { intros Hnone e He. destruct (Hfwd e He) as [?|[owner Hheld]]; [done|].
      unfold entries in Hheld. rewrite Hnone, lookup_empty in Hheld.
      by apply elem_of_nil in Hheld. }
    split; [|split; [|split]].
    + intros tid this T p Hc. by apply registered_by_add, Hfwd in Hc.
    + intros tid this T p Hc. by apply registered_by_add_array, Hfwd in Hc.
    + intros T p. split.
      * apply (occurrences_exact cs σ (scalar_entry T p) Hrun Hall).
      * apply (occurrences_exact cs σ (array_entry T p) Hrun Hall).
    + intros Hnone. split.
      * intros tid this T p Hc. by apply registered_by_add, (Hgone Hnone) in Hc.
      * intros tid this T p Hc. by apply registered_by_add_array, (Hgone Hnone) in Hc.
  - assert (Hreg : ∀ e, destroy e ∈ trace σ ∨ e ∈ all_entries σ → e ∈ registered cs).
    { intros e He. pose proof (occurrences_accounting cs empty_world σ e Hrun) as Hle.
      rewrite (empty_world_owes_nothing e) in Hle. apply occurrences_elem_of.
      destruct He as [He%occurrences_elem_of|He%occurrences_elem_of]; lia. }
    split; [|split].
    + intros T p Hev. apply registered_scalar, Hreg. by left.
    + intros T p Hev. apply registered_array, Hreg. by left.
    + intros this [o [T|T]] He%entries_among_all; simpl.
      * apply registered_scalar, Hreg. by right.
      * apply registered_array, Hreg. by right.
Qed.

Lemma destruction_kind_is_registration_kind_witness :
  run (calls kind_history) empty_world = Some (tt, kind_history_result)
  ∧ Forall (λ c, ¬ self_acquire c.2) kind_history
  ∧ pools kind_history_result = ∅
  ∧ EvDelete "int" 100 ∈ trace kind_history_result
  ∧ EvDeleteArray "int" 200 ∈ trace kind_history_result
  ∧ (EvDeleteArray "int" 200 ∈ trace kind_history_result →
     ∃ tid this, (tid, OpAddArray this "int" 200) ∈ kind_history).
Proof.
  assert (Hrun : run (calls kind_history) empty_world = Some (tt, kind_history_result))
    by (vm_compute; reflexivity).
  assert (Hall : Forall (λ c, ¬ self_acquire c.2) kind_history)
    by (repeat (constructor; [simpl; intros H; done|]); constructor).
  destruct (destruction_kind_is_registration_kind kind_history kind_history_result Hrun)
    as (Hforward & _ & Hbackward & _).
  destruct (Hforward Hall) as (_ & _ & _ & Hgone).
  destruct (Hgone eq_refl) as [Hscalar Harray].
  split; [exact Hrun|]. split; [exact Hall|]. split; [reflexivity|].
  split; [apply (Hscalar 0 1%Z); unfold kind_history; by repeat constructor|].
  split; [apply (Harray 1 1%Z); unfold kind_history; by repeat constructor|].
  apply Hbackward.
Defined.

(** X7.  Over a history of calls that returns, started with no pool, in
    which no pool is asked to take over from itself: the deletions
    performed together with those owed for the entries still held are,
    up to order, exactly one per registration -- no entry is lost or
    deleted twice.  In particular, once every pool has been destroyed,
    every registered object has been deleted exactly once. *)
Theorem every_registered_object_is_deleted_or_held cs σ :
  run (calls cs) empty_world = Some (tt, σ) →
  Forall (λ c, ¬ self_acquire c.2) cs →
  trace σ ++ map destroy (all_entries σ) ≡ₚ map destroy (registered cs)
  ∧ (pools σ = ∅ → trace σ ≡ₚ map destroy (registered cs)).
Proof.
  intros Hrun Hall. pose proof (run_calls_exact cs empty_world σ Hrun Hall) as H.
  rewrite (nothing_owed_without_pools empty_world eq_refl) in H. simpl in H.
  split; [done|]. intros Hnone. by rewrite <- H, nothing_owed_without_pools.
Qed.

Lemma every_registered_object_is_deleted_or_held_witness :
  run (calls whole_history) empty_world = Some (tt, whole_history_result)
  ∧ Forall (λ c, ¬ self_acquire c.2) whole_history
  ∧ pools whole_history_result = ∅
  ∧ trace whole_history_result ≡ₚ map destroy (registered whole_history).
Proof.
  assert (Hrun : run (calls whole_history) empty_world = Some (tt, whole_history_result))
    by (vm_compute; reflexivity).
  assert (Hall : Forall (λ c, ¬ self_acquire c.2) whole_history)
    by (repeat (constructor; [simpl; intros H; done|]); constructor).
  split; [exact Hrun|]. split; [exact Hall|]. split; [reflexivity|].
  exact (proj2 (every_registered_object_is_deleted_or_held
                  whole_history whole_history_result Hrun Hall) eq_refl).
Defined.

(** ** One owner per entry *)

Global Instance destroy_Inj : Inj (=) (=) destroy.
Proof. intros e1 e2. apply destroy_inj. Qed.

Lemma NoDup_submseteq_l {A} (l k : list A) : l ⊆+ k → NoDup k → NoDup l.
Proof.
  intros [k' Hk]%submseteq_Permutation Hnd. rewrite Hk in Hnd.
  by apply NoDup_app in Hnd as [? _].
Qed.

Lemma two_pools_among_all this other P Q σ :
  this ≠ other →
  pools σ !! this = Some P → pools σ !! other = Some Q →
  all_entries σ
  ≡ₚ _objects P ++ _objects Q ++ all_entries (without_pool other (without_pool this σ)).
Proof.
  intros Hne HP HQ. rewrite (all_entries_alive this P σ HP).
  rewrite (all_entries_alive other Q (without_pool this σ)); [done|].
  unfold without_pool. simpl. by rewrite lookup_delete_ne.
Qed.

(** X8.  Over a history of calls that returns, started with no pool, in
    which no entry (pointer with its deletion function) is registered
    twice: at the end no entry is held twice, neither in one pool nor in
    two different pools, and no held entry has already been deleted. *)
Theorem each_entry_has_one_owner cs σ :
  run (calls cs) empty_world = Some (tt, σ) →
  NoDup (registered cs) →
  NoDup (all_entries σ)
  ∧ (∀ this, NoDup (entries σ this))
  ∧ (∀ this other e, this ≠ other → e ∈ entries σ this → e ∉ entries σ other)
  ∧ (∀ this e, e ∈ entries σ this → destroy e ∉ trace σ).
Proof.
  intros Hrun Hnd.
  pose proof (run_calls_accounting cs empty_world σ Hrun) as Hsub.
  rewrite (nothing_owed_without_pools empty_world eq_refl) in Hsub. simpl in Hsub.
  assert (Hall : NoDup (trace σ ++ map destroy (all_entries σ))).
  { apply (NoDup_submseteq_l _ _ Hsub). by apply (NoDup_fmap_2 destroy). }
  apply NoDup_app in Hall as (_ & Hfresh & Hheld).
  apply (NoDup_fmap_1 destroy) in Hheld.
  split; [done|]. split; [|split].
  - intros this. unfold entries. destruct (pools σ !! this) as [P|] eqn:HP;
      [|by apply NoDup_nil].
    rewrite (all_entries_alive this P σ HP) in Hheld.
    by apply NoDup_app in Hheld as [? _].
  - intros this other e Hne. unfold entries.
    destruct (pools σ !! this) as [P|] eqn:HP; [|by intros ?%elem_of_nil].
    destruct (pools σ !! other) as [Q|] eqn:HQ; [|by intros _ ?%elem_of_nil].
    rewrite (two_pools_among_all this other P Q σ Hne HP HQ) in Hheld.
    apply NoDup_app in Hheld as (_ & Hdisj & _).
    intros He Hother. apply (Hdisj e He). apply elem_of_app. by left.
  - intros this e He%entries_among_all Hdone. apply (Hfresh _ Hdone).
    apply (list_elem_of_fmap_2 destroy). done.
Qed.

Lemma each_entry_has_one_owner_witness :
  run (calls sample_history) empty_world = Some (tt, sample_history_result)
  ∧ NoDup (registered sample_history)
  ∧ NoDup (all_entries sample_history_result).
Proof.
  assert (Hrun : run (calls sample_history) empty_world = Some (tt, sample_history_result))
    by (vm_compute; reflexivity).
  assert (Hnd : NoDup (registered sample_history))
    by (vm_compute; repeat (constructor; [by rewrite list_elem_of_In; vm_compute; intuition|]);
        constructor).
  split; [exact Hrun|]. split; [exact Hnd|].
  exact (proj1 (each_entry_has_one_owner sample_history sample_history_result Hrun Hnd)).
Defined.

(** ** Pools a history does not name *)

Lemma effect_frame o σ σ' other :
  effect_of o σ σ' → other ∉ pools_of o → pools σ' !! other = pools σ !! other.
Proof.
  destruct o as [this|this T t|this T t|this|this|this src|this];
    cbn [effect_of pools_of]; intros Heff Hother.
  - destruct Heff as [_ ->]. apply with_pool_lookup_ne. set_solver.
  - destruct Heff as (l & _ & ->). apply with_pool_lookup_ne. set_solver.
  - destruct Heff as (l & _ & ->). apply with_pool_lookup_ne. set_solver.
  - destruct Heff as (l & _ & ->). apply with_pool_lookup_ne. set_solver.
  - destruct Heff as [[_ ->]|(front & e & _ & ->)]; [done|].
    apply with_pool_lookup_ne. set_solver.
  - destruct Heff as (D & S & _ & _ & ->).
    destruct (decide (this = src)).
    + apply with_pool_lookup_ne. set_solver.
    + rewrite !with_pool_lookup_ne; [done|set_solver..].
  - destruct Heff as (l & _ & ->). simpl. apply lookup_delete_ne. set_solver.
Qed.

(** X9.  A history of calls that returns and in which no deletion
    function was called (the trace is the one before) leaves every pool
    it does not name exactly as it was: its entries, their order and its
    lock.  Registration, transfer, and rollback or [clear] of an empty
    pool touch only the pools they are called on or given. *)
Theorem calls_leave_other_pools_alone cs σ σ' other :
  run (calls cs) σ = Some (tt, σ') →
  Forall (λ c, other ∉ pools_of c.2) cs →
  trace σ' = trace σ →
  pools σ' !! other = pools σ !! other.
Proof.
  intros Hrun Hnames _. revert cs σ σ' Hrun Hnames.
  apply (run_calls_ind (λ σ cs σ', Forall (λ c, other ∉ pools_of c.2) cs →
           pools σ' !! other = pools σ !! other)).
  - done.
  - intros σ tid o σ1 cs σ' Heff _ IH Hall.
    apply Forall_cons in Hall as [Ho Hcs].
    by rewrite (IH Hcs), (effect_frame o σ σ1 other Heff Ho).
Qed.

(** ** Locks between calls *)

Lemma effect_idle o σ σ' : effect_of o σ σ' → all_idle σ → all_idle σ'.
Proof.
  assert (Hins : ∀ this P σ, _lock P = Unlocked → all_idle σ →
                             all_idle (with_pool this P σ)).
  { intros this P σ0 HP Hall i Q. unfold with_pool. simpl.
    intros [[-> <-]|[_ HQ]]%lookup_insert_Some; [done|by eapply Hall]. }
  destruct o as [this|this T t|this T t|this|this|this src|this];
    cbn [effect_of]; intros Heff Hall.
  - destruct Heff as [_ ->]. by apply Hins.
  - destruct Heff as (l & _ & ->). by apply Hins.
  - destruct Heff as (l & _ & ->). by apply Hins.
  - destruct Heff as (l & _ & ->). by apply (Hins this (idle_pool []) σ).
  - destruct Heff as [[_ ->]|(front & e & _ & ->)]; [done|].
    by apply (Hins this (idle_pool front) σ).
  - destruct Heff as (D & S & HD & HS & ->).
    destruct (decide (this = src)).
    + apply Hins; [|done]. simpl. by eapply Hall.
    + apply Hins; [simpl; by eapply Hall|]. apply Hins; [|done]. simpl. by eapply Hall.
  - destruct Heff as (l & _ & ->). intros i Q. simpl.
    intros [_ HQ]%lookup_delete_Some. by eapply Hall.
Qed.

(** X10.  Every method gives back the lock it takes: over a history of
    calls that returns, started in a state where no lock is held, no lock
    is held at the end (also after [remove_last_one] on an empty pool,
    which returns early). *)
Theorem calls_leave_no_lock_held cs σ σ' :
  run (calls cs) σ = Some (tt, σ') →
  all_idle σ → all_idle σ'.
Proof.
  intros Hrun. revert cs σ σ' Hrun.
  apply (run_calls_ind (λ σ cs σ', all_idle σ → all_idle σ')); [done|].
  intros σ tid o σ1 cs σ' Heff _ IH Hall. apply IH. by eapply effect_idle.
Qed.

Lemma calls_leave_other_pools_alone_witness :
  run (calls transfer_history) (with_pool 9 bystander empty_world)
  = Some (tt, with_pool 9 bystander transfer_history_result)
  ∧ Forall (λ c, 9%Z ∉ pools_of c.2) transfer_history
  ∧ trace (with_pool 9 bystander transfer_history_result)
    = trace (with_pool 9 bystander empty_world)
  ∧ pools (with_pool 9 bystander transfer_history_result) !! 9%Z
    = pools (with_pool 9 bystander empty_world) !! 9%Z.
Proof.
  assert (Hrun : run (calls transfer_history) (with_pool 9 bystander empty_world)
                 = Some (tt, with_pool 9 bystander transfer_history_result))
    by (vm_compute; reflexivity).
  assert (Hall : Forall (λ c, 9%Z ∉ pools_of c.2) transfer_history)
    by (repeat (constructor; [simpl; rewrite list_elem_of_In; simpl; intuition lia|]);
        constructor).
  split; [exact Hrun|]. split; [exact Hall|]. split; [reflexivity|].
  exact (calls_leave_other_pools_alone transfer_history _ _ 9 Hrun Hall eq_refl).
Defined.

Lemma calls_leave_no_lock_held_witness :
  run (calls sample_history) empty_world = Some (tt, sample_history_result)
  ∧ all_idle empty_world
  ∧ all_idle sample_history_result.
Proof.
  assert (Hrun : run (calls sample_history) empty_world = Some (tt, sample_history_result))
    by (vm_compute; reflexivity).
  assert (Hidle : all_idle empty_world) by (intros this P H; by vm_compute in H).
  split; [exact Hrun|]. split; [exact Hidle|].
  exact (calls_leave_no_lock_held sample_history empty_world sample_history_result
           Hrun Hidle).
Defined.

(** ** Threads: every interleaving is a sequential history *)

(** *** The shape of the locked methods *)

Lemma critical_bind_scope {A B} this tid e (p : Prog A) (f : A → Prog B) :
  critical this tid true p →
  (∀ a, critical this tid e (f a)) →
  critical this tid e (p ≫= f).
Proof.
  induction p as [a|X a k IH]; intros Hp Hf; [apply Hf|].
  change (Atomic a k ≫= f) with (Atomic a (λ x, k x ≫= f)).
  simpl in *. destruct (kind a); try done.
  - by destruct Hp as (? & _).
  - destruct Hp as [-> Hk]. split; [done|]. intros x. by apply IH.
  - intros x. by apply IH.
Qed.

Lemma critical_bind_done {A B} this tid (q : Prog A) (f : A → Prog B) :
  critical this tid false q →
  (∀ a, ∃ b, f a = Done b) →
  critical this tid false (q ≫= f).
Proof.
  induction q as [a|X a k IH]; intros Hq Hf; [done|].
  change (Atomic a k ≫= f) with (Atomic a (λ x, k x ≫= f)).
  simpl in *. destruct (kind a); try done.
  - destruct Hq as (_ & -> & -> & Hk). repeat split. intros x.
    destruct (Hk x) as [r ->]. apply Hf.
  - destruct Hq as [-> Hk]. split; [done|]. intros x. by apply IH.
  - intros x. by apply IH.
Qed.

Lemma critical_for_each this tid l (body : Element → Prog unit) :
  (∀ elem, critical this tid true (body elem)) →
  critical this tid true (for_each l body).
Proof.
  intros Hbody. induction l as [|e l IH]; [done|]. cbn [for_each].
  by apply critical_bind_scope.
Qed.

(** After the lock is taken, a guarded scope is followed by the release. *)
Lemma critical_lock_guard {A} this tid (scope : Prog A) :
  critical this tid true scope →
  ∃ k0, lock_guard this tid scope = Atomic (Lock this tid) k0
        ∧ critical this tid false (k0 tt).
Proof.
  intros Hscope. eexists. split; [reflexivity|]. simpl.
  apply critical_bind_scope; [done|]. intros r. simpl. repeat split.
  intros x. by eexists.
Qed.

Lemma call_shape this tid o :
  locked_method_of this o →
  ∃ k0, call (tid, o) = Atomic (Lock this tid) k0 ∧ critical this tid false (k0 tt).
Proof.
  destruct o as [d|d T t|d T t|d|d|d s|d]; intros Ho; simpl in Ho; try done;
    subst d; unfold call; cbn [fst snd].
  - destruct (critical_lock_guard this tid
                (atomic (EmplaceBack this {| obj := t; delete_fn := delete_scalar T |}) ;;
                 mret t)) as (k0 & Hk0 & Hcrit); [by simpl|].
    unfold add. rewrite Hk0. eexists. split; [reflexivity|]. simpl.
    apply critical_bind_done; [done|]. intros a. by eexists.
  - destruct (critical_lock_guard this tid
                (atomic (EmplaceBack this {| obj := t; delete_fn := delete_array T |}) ;;
                 mret t)) as (k0 & Hk0 & Hcrit); [by simpl|].
    unfold add_array. rewrite Hk0. eexists. split; [reflexivity|]. simpl.
    apply critical_bind_done; [done|]. intros a. by eexists.
  - apply critical_lock_guard.
    apply (critical_bind_scope this tid true (atomic (Objects this))); [by simpl|].
    intros l. apply (critical_bind_scope this tid true (for_each l _)); [|by simpl].
    apply critical_for_each. by simpl.
  - apply critical_lock_guard.
    apply (critical_bind_scope this tid true (atomic (Objects this))); [by simpl|].
    intros l. destruct (decide (l ≠ [])); by simpl.
Qed.

(** *** The locked methods, called alone on an idle pool *)

Lemma locked_call_returns this tid o l σ :
  locked_method_of this o → holds σ this l →
  ∃ σ', run (call (tid, o)) σ = Some (tt, σ').
Proof.
  destruct o as [d|d T t|d T t|d|d|d s|d]; intros Ho Hidle; simpl in Ho; try done;
    subst d; unfold call; cbn [fst snd].
  - erewrite run_then; [|by apply add_run]. by eexists.
  - erewrite run_then; [|by apply add_array_run]. by eexists.
  - rewrite (clear_run this tid l σ Hidle). by eexists.
  - destruct l as [|e front _] using rev_ind.
    + rewrite (remove_last_one_run_empty this tid [] σ Hidle eq_refl). by eexists.
    + rewrite (remove_last_one_run_last this tid _ σ Hidle front e eq_refl).
      by eexists.
Qed.

Lemma locked_effect_holds this o σ σ' :
  locked_method_of this o → effect_of o σ σ' → ∃ l', holds σ' this l'.
Proof.
  destruct o as [d|d T t|d T t|d|d|d s|d]; intros Ho Heff; simpl in Ho; try done;
    subst d; cbn [effect_of] in Heff.
  - destruct Heff as (l & _ & ->). eexists. apply with_pool_lookup.
  - destruct Heff as (l & _ & ->). eexists. apply with_pool_lookup.
  - destruct Heff as (l & _ & ->). eexists. apply with_pool_lookup.
  - destruct Heff as [[Hidle ->]|(front & e & _ & ->)]; [by eexists|].
    eexists. apply with_pool_lookup.
Qed.

Lemma run_calls_snoc cs c : ∀ σ0 σq σ',
  run (calls cs) σ0 = Some (tt, σq) →
  run (call c) σq = Some (tt, σ') →
  run (calls (cs ++ [c])) σ0 = Some (tt, σ').
Proof.
  induction cs as [|c0 cs IH]; intros σ0 σq σ' Hcs Hc; cbn [calls app] in *.
  - injection Hcs as <-. by erewrite run_then.
  - apply run_inv in Hcs as ([] & σ1 & Hc0 & Hrest).
    erewrite run_then; [|done]. by eapply IH.
Qed.

Lemma calls_of_snoc u t o cs :
  calls_of u (cs ++ [(t, o)]) = calls_of u cs ++ (if decide (u = t) then [o] else []).
Proof.
  unfold calls_of. rewrite filter_app, fmap_app. f_equal.
  rewrite filter_cons, filter_nil. simpl.
  destruct (decide (u = t)) as [->|Hne].
  - by rewrite decide_True.
  - rewrite decide_False; [done|]. by intros ->.
Qed.

(** *** The programs of the threads *)

Lemma spawn_lookup oss t : spawn oss !! t = thread_program t <$> oss !! t.
Proof. unfold spawn. apply list_lookup_imap. Qed.

Lemma spawn_length oss : length (spawn oss) = length oss.
Proof. unfold spawn. apply length_imap. Qed.

Lemma spawn_insert oss t os :
  spawn (<[t := os]> oss) = <[t := thread_program t os]> (spawn oss).
Proof.
  apply list_eq. intros i. rewrite spawn_lookup.
  destruct (decide (i = t)) as [->|Hne].
  - destruct (decide (t < length oss)) as [Hlt|Hge].
    + rewrite !list_lookup_insert_eq by (by rewrite ?spawn_length).
      done.
    + rewrite !list_insert_ge by (rewrite ?spawn_length; lia).
      by rewrite spawn_lookup.
  - rewrite !list_lookup_insert_ne by done. by rewrite spawn_lookup.
Qed.

Lemma thread_program_cons this t o os :
  locked_method_of this o →
  ∃ k0, thread_program t (o :: os)
        = Atomic (Lock this t) (λ x, k0 x ≫= λ _, thread_program t os)
        ∧ call (t, o) = Atomic (Lock this t) k0
        ∧ critical this t false (k0 tt).
Proof.
  intros Ho. destruct (call_shape this t o Ho) as (k0 & Hk0 & Hcrit).
  exists k0. split; [|done]. unfold thread_program. cbn [map calls].
  by rewrite Hk0.
Qed.

Lemma perform_lock_held this t u P σ :
  pools σ !! this = Some P → _lock P = LockedBy t →
  perform (Lock this u) σ = None.
Proof.
  intros HP Hheld. simpl. unfold SpinLock_lock.
  unfold mbind, M_bind. by rewrite (get_pool_run _ _ _ HP), Hheld.
Qed.

(** *** The sequential view is kept by every step *)

Lemma serial_view_spawn this l σ0 oss :
  holds σ0 this l →
  Forall (Forall (locked_method_of this)) oss →
  serial_view this σ0 oss (spawn oss, σ0).
Proof.
  intros Hidle Hoss. exists [], oss, σ0, l.
  split; [done|]. split; [done|]. split; [done|]. split; [done|].
  left. split; [done|]. split; [done|].
  intros t os r Hos Hr. simpl. congruence.
Qed.

(** A thread that is not inside a call can only take the lock, and only
    when it is free. *)
Lemma advance_waiting this rest t σ c' :
  Forall (Forall (locked_method_of this)) rest →
  advance t (spawn rest, σ) = Some c' →
  ∃ o rt k0 P,
    rest !! t = Some (o :: rt) ∧ locked_method_of this o
    ∧ call (t, o) = Atomic (Lock this t) k0 ∧ critical this t false (k0 tt)
    ∧ pools σ !! this = Some P ∧ _lock P = Unlocked
    ∧ perform (Lock this t) σ = Some (tt, with_pool this (set_lock (LockedBy t) P) σ)
    ∧ c' = (<[t := k0 tt ≫= λ _, thread_program t rt]> (spawn rest),
            with_pool this (set_lock (LockedBy t) P) σ).
Proof.
  intros Hrest Hadv. unfold advance in Hadv. simpl in Hadv.
  rewrite spawn_lookup in Hadv.
  destruct (rest !! t) as [[|o rt]|] eqn:Hos; [done| |done].
  assert (Ho : locked_method_of this o).
  { eapply Forall_lookup_1 in Hrest; [|done]. by apply Forall_cons in Hrest as [? _]. }
  destruct (thread_program_cons this t o rt Ho) as (k0 & Hprog & Hcall & Hcrit).
  simpl in Hadv. rewrite Hprog in Hadv.
  destruct (perform (Lock this t) σ) as [[[] σ']|] eqn:Hperf; [|done].
  injection Hadv as <-.
  destruct (perform_acquire this t σ tt σ' Hperf) as (P & HP & Hfree & ->).
  by exists o, rt, k0, P.
Qed.

Lemma serial_view_advance this σ0 oss tid c c' :
  serial_view this σ0 oss c → advance tid c = Some c' → serial_view this σ0 oss c'.
Proof.
  destruct c as [ts σ].
  intros (done & rest & σq & lq & Hdone & Hq & Hlen & Hrest & Hcase) Hadv.
  simpl in Hcase.
  destruct Hcase as [(-> & -> & Horder)
                    |(t & o & q & rt & P & σfin & Hrt & Ho & -> & Hcrit & HP & Hheld
                      & Hq_run & Hcall_run & Horder)].
  - (* no call in progress: the thread takes the lock *)
    destruct (advance_waiting this rest tid σq c' Hrest Hadv)
      as (o & rt & k0 & P & Hos & Ho & Hcall & Hcrit & HP & Hfree & Hperf & ->).
    destruct (locked_call_returns this tid o lq σq Ho Hq) as [σfin Hfin].
    exists done, (<[tid := rt]> rest), σq, lq.
    split; [done|]. split; [done|]. split; [by rewrite length_insert|].
    split.
    { apply Forall_insert; [done|].
      eapply Forall_lookup_1 in Hrest; [|done]. by apply Forall_cons in Hrest as [_ ?]. }
    right. exists tid, o, (k0 tt), rt, (set_lock (LockedBy tid) P), σfin.
    assert (Hlt : tid < length rest) by by eapply lookup_lt_Some.
    split; [by rewrite list_lookup_insert_eq|]. split; [done|].
    split; [simpl; by rewrite spawn_insert, list_insert_insert_eq|].
    split; [done|]. split; [apply with_pool_lookup|]. split; [done|].
    split.
    { simpl. rewrite Hcall in Hfin. simpl in Hfin.
      unfold mbind, M_bind in Hfin. simpl in Hperf. by rewrite Hperf in Hfin. }
    split; [done|].
    intros u os r Hu Hr. destruct (decide (u = tid)) as [->|Hne].
    + rewrite list_lookup_insert_eq in Hr by done. injection Hr as <-.
      by apply Horder.
    + rewrite list_lookup_insert_ne in Hr by done. simpl. by apply Horder.
  - (* a call is in progress *)
    assert (Hlt : t < length (spawn rest))
      by (rewrite spawn_length; by eapply lookup_lt_Some).
    destruct (decide (tid = t)) as [->|Hne].
    + (* its thread goes on *)
      destruct q as [r|X a k]; [done|].
      unfold advance in Hadv. simpl in Hadv.
      rewrite list_lookup_insert_eq in Hadv by done.
      change (Atomic a k ≫= λ _, thread_program t rt)
        with (Atomic a (λ x, k x ≫= λ _ : unit, thread_program t rt)) in Hadv.
      simpl in Hadv, Hq_run. unfold mbind at 1, M_bind in Hq_run.
      destruct (perform a σ) as [[x σ']|] eqn:Hperf; [|done].
      injection Hadv as <-. rewrite list_insert_insert_eq.
      simpl in Hcrit. destruct (kind a) as [d u|d u|d| |d] eqn:Hkind; try done.
      * (* the release: the call is complete *)
        destruct Hcrit as (_ & -> & -> & Hk). destruct (Hk x) as [r Hr].
        rewrite Hr in Hq_run |- *. simpl in Hq_run. injection Hq_run as -> <-.
        destruct (locked_effect_holds this o σq σ' Ho
                    (run_call_inv t o σq σ' Hcall_run)) as [l' Hl'].
        exists (done ++ [(t, o)]), rest, σ', l'.
        split; [by eapply run_calls_snoc|]. split; [done|]. split; [done|].
        split; [done|]. left. split; [done|]. split.
        { simpl. apply list_insert_id. by rewrite spawn_lookup, Hrt. }
        intros u os r' Hu Hr'. rewrite calls_of_snoc, <- app_assoc. by apply Horder.
      * (* the list is read or changed *)
        destruct Hcrit as [-> Hk].
        destruct (perform_list a this σ x σ' Hkind Hperf) as (P' & l' & HP' & ->).
        assert (P' = P) as -> by congruence.
        exists done, rest, σq, lq. do 4 (split; [done|]).
        right. exists t, o, (k x), rt, (set_objects l' P), σfin.
        split; [done|]. split; [done|]. split; [done|]. split; [apply Hk|].
        split; [apply with_pool_lookup|]. by do 3 (split; [done|]).
      * (* a deletion function runs *)
        destruct (perform_delete a σ x σ' Hkind Hperf) as (ev & ->).
        exists done, rest, σq, lq. do 4 (split; [done|]).
        right. exists t, o, (k x), rt, P, σfin.
        split; [done|]. split; [done|]. split; [done|]. split; [apply Hcrit|].
        by do 4 (split; [done|]).
    + (* another thread would have to take the held lock *)
      exfalso. unfold advance in Hadv. simpl in Hadv.
      rewrite list_lookup_insert_ne in Hadv by done. rewrite spawn_lookup in Hadv.
      destruct (rest !! tid) as [[|o' rt']|] eqn:Hos; [done| |done].
      assert (Ho' : locked_method_of this o').
      { eapply Forall_lookup_1 in Hrest; [|done].
        by apply Forall_cons in Hrest as [? _]. }
      destruct (thread_program_cons this tid o' rt' Ho') as (k0 & Hprog & _ & _).
      simpl in Hadv. rewrite Hprog in Hadv.
      by rewrite (perform_lock_held this t tid P σ HP Hheld) in Hadv.
Qed.

Lemma serial_view_schedule this σ0 oss order : ∀ c c',
  serial_view this σ0 oss c → schedule order c = Some c' → serial_view this σ0 oss c'.
Proof.
  induction order as [|tid order IH]; intros c c' Hinv Hrun; simpl in Hrun.
  - by injection Hrun as <-.
  - destruct (advance tid c) as [c1|] eqn:Hadv; [|done].
    eapply IH; [|done]. by eapply serial_view_advance.
Qed.



(** X12.  The same threads never get stuck: in every configuration they
    reach, unless every thread has finished, some thread can take its next
    step.  (The thread holding the lock can always go on: inside
    [remove_last_one] the calls of [back] and [pop_back] are guarded by the
    emptiness test; and when the lock is free any unfinished thread can
    take it.) *)
Theorem locked_methods_do_not_deadlock this l0 σ0 oss order ts σ :
  holds σ0 this l0 →
  Forall (Forall (locked_method_of this)) oss →
  schedule order (spawn oss, σ0) = Some (ts, σ) →
  Exists (λ p, finished p = false) ts →
  ∃ tid c', advance tid (ts, σ) = Some c'.
Proof.
  intros Hidle Hoss Hrun Hunfinished.
  destruct (serial_view_schedule this σ0 oss order _ _
              (serial_view_spawn this l0 σ0 oss Hidle Hoss) Hrun)
    as (done & rest & σq & lq & Hdone & Hq & Hlen & Hrest & Hcase).
  simpl in Hcase.
  destruct Hcase as [(-> & -> & Horder)
                    |(t & o & q & rt & P & σfin & Hrt & Ho & -> & Hcrit & HP & Hheld
                      & Hq_run & _)].
  - (* the lock is free: an unfinished thread takes it *)
    apply Exists_exists in Hunfinished as (p & Hp & Hnot).
    apply list_elem_of_lookup in Hp as [tid Hp]. rewrite spawn_lookup in Hp.
    destruct (rest !! tid) as [[|o rt]|] eqn:Hos; simpl in Hp; [|clear Hp|done].
    { injection Hp as <-. done. }
    assert (Ho : locked_method_of this o).
    { eapply Forall_lookup_1 in Hrest; [|done]. by apply Forall_cons in Hrest as [? _]. }
    destruct (thread_program_cons this tid o rt Ho) as (k0 & Hprog & _ & _).
    exists tid. unfold advance. simpl. rewrite spawn_lookup, Hos. simpl.
    rewrite Hprog. simpl. unfold SpinLock_lock, mbind, M_bind.
    rewrite (get_pool_run _ _ _ Hq). simpl. by eexists.
  - (* the thread holding the lock goes on *)
    assert (Hlt : t < length (spawn rest))
      by (rewrite spawn_length; by eapply lookup_lt_Some).
    destruct q as [r|X a k]; [done|].
    exists t. unfold advance. simpl. rewrite list_lookup_insert_eq by done.
    change (Atomic a k ≫= λ _, thread_program t rt)
      with (Atomic a (λ x, k x ≫= λ _ : unit, thread_program t rt)).
    simpl in Hq_run |- *. unfold mbind at 1, M_bind in Hq_run.
    destruct (perform a σ) as [[x σ']|]; [by eexists|done].
Qed.

Lemma locked_methods_do_not_deadlock_witness :
  holds empty_pool_world 1 []
  ∧ Forall (Forall (locked_method_of 1)) sample_threads
  ∧ schedule sample_order (spawn sample_threads, empty_pool_world)
    = Some (sample_config.1, sample_config.2)
  ∧ Exists (λ p, finished p = false) sample_config.1
  ∧ ∃ tid c', advance tid (sample_config.1, sample_config.2) = Some c'.
Proof.
  assert (H1 : holds empty_pool_world 1 []) by reflexivity.
  assert (H2 : Forall (Forall (locked_method_of 1)) sample_threads)
    by (repeat constructor).
  assert (H3 : schedule sample_order (spawn sample_threads, empty_pool_world)
               = Some (sample_config.1, sample_config.2))
    by (vm_compute; reflexivity).
  assert (H4 : Exists (λ p, finished p = false) sample_config.1)
    by (apply Exists_cons_hd; vm_compute; reflexivity).
  split; [exact H1|]. split; [exact H2|]. split; [exact H3|]. split; [exact H4|].
  exact (locked_methods_do_not_deadlock 1 [] empty_pool_world sample_threads
           sample_order sample_config.1 sample_config.2 H1 H2 H3 H4).
Defined.
